(** * Verification model of the capnp proxy engine

    Source: [src/interfaces/capnp/proxy.cpp] and [proxy.h].

    The engine is concurrent C++.  It is embedded as a small-step
    interleaving semantics: every thread of the source gets a program
    counter type with one constructor per synchronisation-relevant
    program point, and a step function that performs the statements
    between two such points.  A schedule is a list of labels saying
    which thread moves next; properties of the source are invariants of
    all schedules, or evaluations of one concrete schedule.

    Conventions used throughout:
    - a [std::function<void()>] object is identified by a number (its
      address); its body is opaque and is assumed to return without
      touching the state modelled here.  Running it is visible as a pair
      of events [EvBegin]/[EvEnd] in the trace;
    - [std::mutex] is an owner field; locking is a step that is enabled
      only while the owner field is empty;
    - [std::condition_variable::wait] releases the mutex and the waiter
      may re-acquire it at any later time (C++ permits spurious
      wake-ups), so [notify_all] does not change which steps are enabled;
    - the socket pair behind [m_wait_fd]/[m_post_fd] is a counter of
      bytes written and not yet read; a write fails once the loop thread
      has destroyed the read end;
    - undefined behaviour is given no continuation: the step that would
      overflow the [int] counter does not exist, and after the
      dereference of a null pointer no thread takes a step. *)

From stdpp Require Import prelude gmap strings.
From Stdlib Require Import ZArith Lia.

(** ** Function objects, threads, events *)

(** Address of a [std::function<void()>] object. *)
Definition fn := nat.

(** The activities that touch one [EventLoop]:
    the thread inside [EventLoop::loop], the dispatcher thread created
    by [startAsyncThread], the thread executing [Connection::~Connection],
    and any number of callers of the public entry points
    ([EventLoop::post], [AddClient], [RemoveClient]). *)
Inductive actor :=
| ALoop
| AAsync
| AConn
| AUser (i : nat).

#[global] Instance actor_eq_dec : EqDecision actor.
Proof. solve_decision. Defined.

Inductive event :=
| EvBegin (a : actor) (f : fn)   (* a starts executing f *)
| EvEnd (a : actor) (f : fn)     (* f returned *)
| EvReturn (i : nat)             (* the call of user i returned *)
| EvRegSync (f : fn)             (* addSyncCleanup(f) *)
| EvRegAsync (f : fn)            (* addAsyncCleanup(f) *)
| EvDefer (f : fn)               (* f appended to m_loop.m_async_fns *)
| EvStartAsync                   (* ~Connection called startAsyncThread *)
| EvClose (fd : Z).              (* descriptor closed *)

#[global] Instance event_eq_dec : EqDecision event.
Proof. solve_decision. Defined.

(** ** EventLoop *)

(** The data members of [EventLoop] that [proxy.cpp] reads and writes
    (the class itself is declared in [proxy-io.h]). *)
Record EventLoop := mkEventLoop {
  m_post_fn : option fn;         (* const std::function<void()>* *)
  m_async_fns : list fn;         (* CleanupList *)
  m_num_clients : Z;             (* int *)
  m_wait_fd : Z;
  m_post_fd : Z;
  m_async_thread : bool;         (* m_async_thread.joinable() *)
  m_mutex : option actor;        (* owner of m_mutex *)
}.

Definition set_post_fn (v : option fn) (l : EventLoop) : EventLoop :=
  mkEventLoop v (m_async_fns l) (m_num_clients l) (m_wait_fd l) (m_post_fd l)
              (m_async_thread l) (m_mutex l).
Definition set_async_fns (v : list fn) (l : EventLoop) : EventLoop :=
  mkEventLoop (m_post_fn l) v (m_num_clients l) (m_wait_fd l) (m_post_fd l)
              (m_async_thread l) (m_mutex l).
Definition set_num_clients (v : Z) (l : EventLoop) : EventLoop :=
  mkEventLoop (m_post_fn l) (m_async_fns l) v (m_wait_fd l) (m_post_fd l)
              (m_async_thread l) (m_mutex l).
Definition set_wait_fd (v : Z) (l : EventLoop) : EventLoop :=
  mkEventLoop (m_post_fn l) (m_async_fns l) (m_num_clients l) v (m_post_fd l)
              (m_async_thread l) (m_mutex l).
Definition set_post_fd (v : Z) (l : EventLoop) : EventLoop :=
  mkEventLoop (m_post_fn l) (m_async_fns l) (m_num_clients l) (m_wait_fd l) v
              (m_async_thread l) (m_mutex l).
Definition set_async_thread (v : bool) (l : EventLoop) : EventLoop :=
  mkEventLoop (m_post_fn l) (m_async_fns l) (m_num_clients l) (m_wait_fd l)
              (m_post_fd l) v (m_mutex l).
Definition set_mutex (v : option actor) (l : EventLoop) : EventLoop :=
  mkEventLoop (m_post_fn l) (m_async_fns l) (m_num_clients l) (m_wait_fd l)
              (m_post_fd l) (m_async_thread l) v.

(** The largest value of an [int]. *)
Definition INT_MAX : Z := 2147483647%Z.

(** [EventLoop::addClient]: [m_num_clients += 1].  [m_num_clients] is an
    [int]: at [INT_MAX] the increment overflows, which is undefined
    behaviour (a build that wraps around continues with -2147483648, and
    the next [removeClient] fails its assertion).  [None] is the
    overflow. *)
Definition addClient (l : EventLoop) : option EventLoop :=
  if decide (m_num_clients l < INT_MAX)%Z
  then Some (set_num_clients (m_num_clients l + 1)%Z l)
  else None.

(** [EventLoop::removeClient] up to its [Unlock]:
    [assert(m_num_clients > 0); m_num_clients -= 1;] and the test
    [m_num_clients == 0].  [None] is the failed assertion; the boolean
    says whether the branch that notifies and writes the wake byte is
    taken. *)
Definition removeClient (l : EventLoop) : option (EventLoop * bool) :=
  if decide (0 < m_num_clients l)%Z then
    let l' := set_num_clients (m_num_clients l - 1)%Z l in
    Some (l', bool_decide (m_num_clients l' = 0%Z))
  else None.

(** [KJ_SYSCALL(write(m_post_fd, &buffer, 1))]: one more byte in the
    socket pair.  The system call fails, and [KJ_SYSCALL] throws
    ([None]), on a closed descriptor and, with EPIPE, as soon as the
    other end of the socket pair is closed; [peer_open] says whether the
    read end is still open. *)
Definition write_post_fd (l : EventLoop) (peer_open : bool) (wake : nat) : option nat :=
  if decide (m_post_fd l = (-1)%Z) then None
  else if peer_open then Some (S wake) else None.

(** ** Connection *)

(** [Connection] owns the two cleanup lists; [m_loop] is a reference to
    the shared [EventLoop], kept in the [world] below. *)
Record Connection := mkConnection {
  m_sync_cleanup_fns : list fn;
  m_async_cleanup_fns : list fn;
}.

(** [Connection::addSyncCleanup]: [emplace] at [begin()]. *)
Definition addSyncCleanup (f : fn) (c : Connection) : Connection :=
  mkConnection (f :: m_sync_cleanup_fns c) (m_async_cleanup_fns c).

(** [Connection::addAsyncCleanup]: [emplace] at [begin()]. *)
Definition addAsyncCleanup (f : fn) (c : Connection) : Connection :=
  mkConnection (m_sync_cleanup_fns c) (f :: m_async_cleanup_fns c).

(** ** Program counters *)

(** [EventLoop::loop], lines 150-182. *)
Inductive loop_pc :=
| L_start            (* before assert(!g_thread_context.loop_thread) *)
| L_read             (* blocked in wait_stream->read(&buffer, 0, 1) *)
| L_lock             (* read_bytes == 1: WAIT_LOCK(m_mutex, lock) *)
| L_locked           (* holds the lock: if (m_post_fn) *)
| L_running (f : fn) (* inside Unlock(lock, *m_post_fn), lock released *)
| L_relock           (* Unlock re-acquires the lock *)
| L_clear            (* holds the lock: m_post_fn = nullptr *)
| L_notify           (* m_cv.notify_all() *)
| L_check_clients    (* m_num_clients == 0 *)
| L_check_async      (* && m_async_fns.empty() *)
| L_exit             (* break: wait_stream = nullptr; m_wait_fd = -1 *)
| L_close_post       (* close(m_post_fd); m_post_fd = -1 *)
| L_done             (* returned *)
| L_threw            (* std::logic_error left loop() *)
| L_aborted.         (* assert failed *)

(** The dispatcher lambda of [startAsyncThread], lines 219-234. *)
Inductive async_pc :=
| A_unstarted
| A_lock             (* WAIT_LOCK(m_mutex, lock) *)
| A_top              (* holds the lock: head of while (true) *)
| A_pop              (* holds the lock, after addClient(lock) *)
| A_running (f : fn) (* inside Unlock(lock, fn), lock released *)
| A_relock           (* Unlock re-acquires the lock *)
| A_remove           (* holds the lock: removeClient(lock) *)
| A_write            (* removeClient: inside Unlock, write to m_post_fd *)
| A_write_relock     (* removeClient: Unlock re-acquires the lock *)
| A_wait             (* m_cv.wait(lock): lock released *)
| A_done
| A_threw
| A_aborted.

(** The read end of the socket pair is open: [wait_stream], which owns
    [m_wait_fd], has not been destroyed.  [loop] destroys it at line 178
    when it leaves its cycle, and the unwinding of the exception of line
    168 destroys it too. *)
Definition wait_stream_open (pc : loop_pc) : bool :=
  match pc with
  | L_close_post | L_done | L_threw => false
  | _ => true
  end.

(** [Connection::~Connection], lines 94-105. *)
Inductive conn_pc :=
| D_alive                 (* not yet destroyed; cleanups may be added *)
| D_sync                  (* while (!m_sync_cleanup_fns.empty()) *)
| D_sync_running (f : fn) (* m_sync_cleanup_fns.front()() *)
| D_async                 (* while (!m_async_cleanup_fns.empty()) *)
| D_push                  (* holds the lock: emplace_back, pop_front *)
| D_final_lock            (* WAIT_LOCK(m_loop.m_mutex, lock) *)
| D_start_async           (* holds the lock: startAsyncThread(lock) *)
| D_remove                (* holds the lock: removeClient(lock) *)
| D_write                 (* removeClient: inside Unlock, write *)
| D_relock                (* removeClient: Unlock re-acquires *)
| D_unlock                (* holds the lock: end of destructor *)
| D_done
| D_threw
| D_aborted.

(** Calls made by other threads. [on_loop_thread] is the value of
    [std::this_thread::get_id() == m_thread_id] in the caller. *)
Inductive call :=
| CallPost (on_loop_thread : bool) (f : fn)   (* EventLoop::post(f) *)
| CallAddClient                               (* AddClient(loop) *)
| CallRemoveClient.                           (* RemoveClient(loop) *)

Inductive user_pc :=
| U_start
| U_running          (* post on the loop thread: inside fn() *)
| U_lock             (* waiting for m_mutex *)
| U_locked           (* holds the lock *)
| U_write            (* inside Unlock: write to m_post_fd *)
| U_relock           (* Unlock re-acquires / second wait re-acquires *)
| U_relocked         (* holds the lock after the write *)
| U_done
| U_threw
| U_aborted.

#[global] Instance loop_pc_eq_dec : EqDecision loop_pc.
Proof. solve_decision. Defined.
#[global] Instance async_pc_eq_dec : EqDecision async_pc.
Proof. solve_decision. Defined.
#[global] Instance conn_pc_eq_dec : EqDecision conn_pc.
Proof. solve_decision. Defined.
#[global] Instance call_eq_dec : EqDecision call.
Proof. solve_decision. Defined.
#[global] Instance user_pc_eq_dec : EqDecision user_pc.
Proof. solve_decision. Defined.

(** ** The world: one EventLoop, one Connection, their threads *)

Record world := mkWorld {
  ev_loop : EventLoop;
  conn : Connection;
  loop_thread : bool;      (* g_thread_context.loop_thread of the loop thread *)
  wake : nat;              (* bytes written to m_post_fd, not yet read *)
  pc_loop : loop_pc;
  pc_async : async_pc;
  pc_conn : conn_pc;
  users : list (call * user_pc);
  env_refs : nat;          (* client references held by callers of AddClient *)
  trace : list event;      (* newest event first *)
}.

Definition upd_loop (g : EventLoop -> EventLoop) (w : world) : world :=
  mkWorld (g (ev_loop w)) (conn w) (loop_thread w) (wake w) (pc_loop w)
          (pc_async w) (pc_conn w) (users w) (env_refs w) (trace w).
Definition set_conn (v : Connection) (w : world) : world :=
  mkWorld (ev_loop w) v (loop_thread w) (wake w) (pc_loop w)
          (pc_async w) (pc_conn w) (users w) (env_refs w) (trace w).
Definition set_loop_thread (v : bool) (w : world) : world :=
  mkWorld (ev_loop w) (conn w) v (wake w) (pc_loop w)
          (pc_async w) (pc_conn w) (users w) (env_refs w) (trace w).
Definition set_wake (v : nat) (w : world) : world :=
  mkWorld (ev_loop w) (conn w) (loop_thread w) v (pc_loop w)
          (pc_async w) (pc_conn w) (users w) (env_refs w) (trace w).
Definition set_pc_loop (v : loop_pc) (w : world) : world :=
  mkWorld (ev_loop w) (conn w) (loop_thread w) (wake w) v
          (pc_async w) (pc_conn w) (users w) (env_refs w) (trace w).
Definition set_pc_async (v : async_pc) (w : world) : world :=
  mkWorld (ev_loop w) (conn w) (loop_thread w) (wake w) (pc_loop w)
          v (pc_conn w) (users w) (env_refs w) (trace w).
Definition set_pc_conn (v : conn_pc) (w : world) : world :=
  mkWorld (ev_loop w) (conn w) (loop_thread w) (wake w) (pc_loop w)
          (pc_async w) v (users w) (env_refs w) (trace w).
Definition set_users (v : list (call * user_pc)) (w : world) : world :=
  mkWorld (ev_loop w) (conn w) (loop_thread w) (wake w) (pc_loop w)
          (pc_async w) (pc_conn w) v (env_refs w) (trace w).
Definition set_env_refs (v : nat) (w : world) : world :=
  mkWorld (ev_loop w) (conn w) (loop_thread w) (wake w) (pc_loop w)
          (pc_async w) (pc_conn w) (users w) v (trace w).
Definition emit (e : event) (w : world) : world :=
  mkWorld (ev_loop w) (conn w) (loop_thread w) (wake w) (pc_loop w)
          (pc_async w) (pc_conn w) (users w) (env_refs w) (e :: trace w).

(** Locking [m_mutex]: possible only while it has no owner. *)
Definition acquire (a : actor) (w : world) : option world :=
  match m_mutex (ev_loop w) with
  | None => Some (upd_loop (set_mutex (Some a)) w)
  | Some _ => None
  end.

Definition release (w : world) : world := upd_loop (set_mutex None) w.

(** [EventLoop::startAsyncThread]: if the dispatcher handle is joinable
    only notify; otherwise, when the deferred queue is not empty, create
    the dispatcher thread (which starts at [A_lock]). *)
Definition startAsyncThread (w : world) : world :=
  if m_async_thread (ev_loop w) then w
  else match m_async_fns (ev_loop w) with
       | [] => w
       | _ :: _ => set_pc_async A_lock (upd_loop (set_async_thread true) w)
       end.

(** ** Steps of each thread *)

(** [EventLoop::loop].  [read_bytes] is the value returned by
    [wait_stream->read(&buffer, 0, 1)], used only at [L_read]: a read of
    one byte needs a byte in the socket pair; any other value is an
    end-of-file or failure of the stream and may occur at any time. *)
Definition loop_step (read_bytes : Z) (w : world) : option world :=
  match pc_loop w with
  | L_start =>
      (* assert(!g_thread_context.loop_thread); g_thread_context.loop_thread = true; *)
      if loop_thread w then Some (set_pc_loop L_aborted w)
      else Some (set_pc_loop L_read (set_loop_thread true w))
  | L_read =>
      if decide (read_bytes = 1%Z) then
        match wake w with
        | O => None
        | S n => Some (set_pc_loop L_lock (set_wake n w))
        end
      else
        (* throw std::logic_error(...); unwinding runs KJ_DEFER and
           destroys wait_stream, which owns the wait descriptor *)
        Some (set_pc_loop L_threw
                (set_loop_thread false (emit (EvClose (m_wait_fd (ev_loop w))) w)))
  | L_lock => set_pc_loop L_locked <$> acquire ALoop w
  | L_locked =>
      match m_post_fn (ev_loop w) with
      | Some f => Some (set_pc_loop (L_running f) (emit (EvBegin ALoop f) (release w)))
      | None => Some (set_pc_loop L_notify (release w))
      end
  | L_running f => Some (set_pc_loop L_relock (emit (EvEnd ALoop f) w))
  | L_relock => set_pc_loop L_clear <$> acquire ALoop w
  | L_clear => Some (set_pc_loop L_notify (release (upd_loop (set_post_fn None) w)))
  | L_notify => Some (set_pc_loop L_check_clients w)
  | L_check_clients =>
      if decide (m_num_clients (ev_loop w) = 0%Z)
      then Some (set_pc_loop L_check_async w)
      else Some (set_pc_loop L_read w)
  | L_check_async =>
      match m_async_fns (ev_loop w) with
      | [] => Some (set_pc_loop L_exit w)
      | _ :: _ => Some (set_pc_loop L_read w)
      end
  | L_exit =>
      Some (set_pc_loop L_close_post
              (upd_loop (set_wait_fd (-1)%Z) (emit (EvClose (m_wait_fd (ev_loop w))) w)))
  | L_close_post =>
      Some (set_pc_loop L_done
              (set_loop_thread false
                 (upd_loop (set_post_fd (-1)%Z) (emit (EvClose (m_post_fd (ev_loop w))) w))))
  | L_done | L_threw | L_aborted => None
  end.

(** The dispatcher thread created by [startAsyncThread]. *)
Definition async_step (w : world) : option world :=
  match pc_async w with
  | A_unstarted => None
  | A_lock => set_pc_async A_top <$> acquire AAsync w
  | A_top =>
      match m_async_fns (ev_loop w) with
      | _ :: _ =>
          (fun l => set_pc_async A_pop (upd_loop (fun _ => l) w)) <$> addClient (ev_loop w)
      | [] =>
          if decide (m_num_clients (ev_loop w) = 0%Z)
          then Some (set_pc_async A_done (release w))
          else Some (set_pc_async A_wait (release w))
      end
  | A_pop =>
      match m_async_fns (ev_loop w) with
      | f :: q =>
          Some (set_pc_async (A_running f)
                  (emit (EvBegin AAsync f) (release (upd_loop (set_async_fns q) w))))
      | [] => None
      end
  | A_running f => Some (set_pc_async A_relock (emit (EvEnd AAsync f) w))
  | A_relock => set_pc_async A_remove <$> acquire AAsync w
  | A_remove =>
      match removeClient (ev_loop w) with
      | None => Some (set_pc_async A_aborted w)
      | Some (l', true) => Some (set_pc_async A_write (release (upd_loop (fun _ => l') w)))
      | Some (l', false) => Some (set_pc_async A_top (upd_loop (fun _ => l') w))
      end
  | A_write =>
      match write_post_fd (ev_loop w) (wait_stream_open (pc_loop w)) (wake w) with
      | Some n => Some (set_pc_async A_write_relock (set_wake n w))
      | None => Some (set_pc_async A_threw w)
      end
  | A_write_relock => set_pc_async A_top <$> acquire AAsync w
  | A_wait => set_pc_async A_top <$> acquire AAsync w
  | A_done | A_threw | A_aborted => None
  end.

(** [Connection::~Connection]. *)
Definition conn_step (w : world) : option world :=
  match pc_conn w with
  | D_alive => Some (set_pc_conn D_sync w)
  | D_sync =>
      match m_sync_cleanup_fns (conn w) with
      | f :: _ => Some (set_pc_conn (D_sync_running f) (emit (EvBegin AConn f) w))
      | [] => Some (set_pc_conn D_async w)
      end
  | D_sync_running f =>
      Some (set_pc_conn D_sync
              (set_conn (mkConnection (tail (m_sync_cleanup_fns (conn w)))
                                      (m_async_cleanup_fns (conn w)))
                        (emit (EvEnd AConn f) w)))
  | D_async =>
      match m_async_cleanup_fns (conn w) with
      | _ :: _ => set_pc_conn D_push <$> acquire AConn w
      | [] => Some (set_pc_conn D_final_lock w)
      end
  | D_push =>
      match m_async_cleanup_fns (conn w) with
      | f :: rest =>
          Some (set_pc_conn D_async
                  (release
                     (emit (EvDefer f)
                        (set_conn (mkConnection (m_sync_cleanup_fns (conn w)) rest)
                           (upd_loop (fun l => set_async_fns (m_async_fns l ++ [f]) l) w)))))
      | [] => None
      end
  | D_final_lock => set_pc_conn D_start_async <$> acquire AConn w
  | D_start_async =>
      Some (set_pc_conn D_remove (emit EvStartAsync (startAsyncThread w)))
  | D_remove =>
      match removeClient (ev_loop w) with
      | None => Some (set_pc_conn D_aborted w)
      | Some (l', true) => Some (set_pc_conn D_write (release (upd_loop (fun _ => l') w)))
      | Some (l', false) => Some (set_pc_conn D_unlock (upd_loop (fun _ => l') w))
      end
  | D_write =>
      match write_post_fd (ev_loop w) (wait_stream_open (pc_loop w)) (wake w) with
      | Some n => Some (set_pc_conn D_relock (set_wake n w))
      | None => Some (set_pc_conn D_threw w)
      end
  | D_relock => set_pc_conn D_unlock <$> acquire AConn w
  | D_unlock => Some (set_pc_conn D_done (release w))
  | D_done | D_threw | D_aborted => None
  end.

Definition set_user (i : nat) (c : call) (pc : user_pc) (w : world) : world :=
  set_users (<[i := (c, pc)]> (users w)) w.

(** [EventLoop::post(fn)], lines 184-197. *)
Definition post_step (i : nat) (on_loop_thread : bool) (f : fn) (pc : user_pc)
    (w : world) : option world :=
  let c := CallPost on_loop_thread f in
  match pc with
  | U_start =>
      (* if (std::this_thread::get_id() == m_thread_id) return fn(); *)
      if on_loop_thread
      then Some (set_user i c U_running (emit (EvBegin ALoop f) w))
      else Some (set_user i c U_lock w)
  | U_running => Some (set_user i c U_done (emit (EvReturn i) (emit (EvEnd ALoop f) w)))
  | U_lock => set_user i c U_locked <$> acquire (AUser i) w
  | U_locked =>
      (* m_cv.wait(lock, [this] { return m_post_fn == nullptr; }); m_post_fn = &fn; *)
      match m_post_fn (ev_loop w) with
      | None => Some (set_user i c U_write (release (upd_loop (set_post_fn (Some f)) w)))
      | Some _ => Some (set_user i c U_lock (release w))
      end
  | U_write =>
      match write_post_fd (ev_loop w) (wait_stream_open (pc_loop w)) (wake w) with
      | Some n => Some (set_user i c U_relock (set_wake n w))
      | None => Some (set_user i c U_threw w)
      end
  | U_relock => set_user i c U_relocked <$> acquire (AUser i) w
  | U_relocked =>
      (* m_cv.wait(lock, [this, &fn] { return m_post_fn != &fn; }); *)
      if decide (m_post_fn (ev_loop w) = Some f)
      then Some (set_user i c U_relock (release w))
      else Some (set_user i c U_done (emit (EvReturn i) (release w)))
  | U_done | U_threw | U_aborted => None
  end.

(** [AddClient(loop)], lines 238-242.  The caller now owns a reference. *)
Definition add_client_step (i : nat) (pc : user_pc) (w : world) : option world :=
  let c := CallAddClient in
  match pc with
  | U_start => set_user i c U_locked <$> acquire (AUser i) w
  | U_locked =>
      (fun l => set_user i c U_done
                  (emit (EvReturn i)
                     (set_env_refs (S (env_refs w)) (release (upd_loop (fun _ => l) w)))))
      <$> addClient (ev_loop w)
  | _ => None
  end.

(** [RemoveClient(loop)], lines 243-247. *)
Definition remove_client_step (i : nat) (pc : user_pc) (w : world) : option world :=
  let c := CallRemoveClient in
  match pc with
  | U_start => set_user i c U_locked <$> acquire (AUser i) w
  | U_locked =>
      match removeClient (ev_loop w) with
      | None => Some (set_user i c U_aborted w)
      | Some (l', true) => Some (set_user i c U_write (release (upd_loop (fun _ => l') w)))
      | Some (l', false) =>
          Some (set_user i c U_done (emit (EvReturn i) (release (upd_loop (fun _ => l') w))))
      end
  | U_write =>
      match write_post_fd (ev_loop w) (wait_stream_open (pc_loop w)) (wake w) with
      | Some n => Some (set_user i c U_relock (set_wake n w))
      | None => Some (set_user i c U_threw w)
      end
  | U_relock => set_user i c U_relocked <$> acquire (AUser i) w
  | U_relocked => Some (set_user i c U_done (emit (EvReturn i) (release w)))
  | _ => None
  end.

(** The calls other threads make.  The environment of the model: a
    thread starts [RemoveClient] only to give up a reference obtained
    with [AddClient] ([env_refs] counts the references not yet given
    up).  This is how callers use the pair; [RemoveClient] itself does
    not check it. *)
Definition user_step (i : nat) (w : world) : option world :=
  match users w !! i with
  | Some (CallPost b f, pc) => post_step i b f pc w
  | Some (CallAddClient, pc) => add_client_step i pc w
  | Some (CallRemoveClient, pc) =>
      match pc, env_refs w with
      | U_start, O => None
      | U_start, S n => remove_client_step i pc (set_env_refs n w)
      | _, _ => remove_client_step i pc w
      end
  | None => None
  end.

(** Registration of cleanup functions while the Connection is alive.
    Both take [m_loop.m_mutex] for the insertion. *)
Definition reg_step (sync : bool) (f : fn) (w : world) : option world :=
  match pc_conn w, m_mutex (ev_loop w) with
  | D_alive, None =>
      if sync
      then Some (emit (EvRegSync f) (set_conn (addSyncCleanup f (conn w)) w))
      else Some (emit (EvRegAsync f) (set_conn (addAsyncCleanup f (conn w)) w))
  | _, _ => None
  end.

(** ** Schedules *)

Inductive label :=
| LLoop (read_bytes : Z)
| LAsync
| LConn
| LUser (i : nat)
| LRegSync (f : fn)
| LRegAsync (f : fn).

Definition step (l : label) (w : world) : option world :=
  match l with
  | LLoop n => loop_step n w
  | LAsync => async_step w
  | LConn => conn_step w
  | LUser i => user_step i w
  | LRegSync f => reg_step true f w
  | LRegAsync f => reg_step false f w
  end.

Fixpoint run (sched : list label) (w : world) : option world :=
  match sched with
  | [] => Some w
  | l :: rest =>
      match step l w with
      | Some w' => run rest w'
      | None => None
      end
  end.

(** A freshly constructed EventLoop with one live Connection (which
    holds one client reference), [refs] further client references held
    by callers of [AddClient], and the calls that other threads are
    going to make. *)
Definition initial (wait_fd post_fd : Z) (refs : nat) (calls : list call) : world :=
  mkWorld (mkEventLoop None [] (Z.of_nat refs + 1)%Z wait_fd post_fd false None)
          (mkConnection [] []) false 0
          L_start A_unstarted D_alive
          (map (fun c => (c, U_start)) calls) refs [].

(** [EventLoop::~EventLoop], lines 135-148: join the dispatcher if its
    handle is joinable, lock [m_mutex], then five [KJ_ASSERT]s.  A
    failing [KJ_ASSERT] throws inside the destructor; the result names
    its source line.  [DtorBlocks]: [join()] or the lock cannot return
    in this state. *)
Inductive dtor_result :=
| DtorReturns
| DtorAssertFails (line : nat)
| DtorBlocks.

Definition EventLoop_dtor (w : world) : dtor_result :=
  if m_async_thread (ev_loop w) && negb (bool_decide (pc_async w = A_done))
  then DtorBlocks
  else if negb (bool_decide (m_mutex (ev_loop w) = None)) then DtorBlocks
  else if negb (bool_decide (m_post_fn (ev_loop w) = None)) then DtorAssertFails 139
  else if negb (bool_decide (m_async_fns (ev_loop w) = [])) then DtorAssertFails 140
  else if negb (bool_decide (m_wait_fd (ev_loop w) = (-1)%Z)) then DtorAssertFails 141
  else if negb (bool_decide (m_post_fd (ev_loop w) = (-1)%Z)) then DtorAssertFails 142
  else if negb (bool_decide (m_num_clients (ev_loop w) = 0%Z)) then DtorAssertFails 143
  else DtorReturns.

(** * Thread and ThreadMap proxies

    [ProxyServer<ThreadMap>::makeThread], the worker thread it creates,
    and [ProxyServer<Thread>::~ProxyServer], lines 249-309. *)

(** A [Thread::Client] capability. *)
Definition cap := nat.

(** The members of [ThreadContext] used by [proxy.cpp] (the struct is
    declared in [proxy-io.h]).  The two maps are keyed by Connection. *)
Record ThreadContext := mkThreadContext {
  thread_name : string;
  waiter : bool;                       (* waiter.get() != nullptr *)
  request_threads : gmap nat cap;
  callback_threads : gmap nat cap;
}.

Definition set_thread_name (v : string) (c : ThreadContext) : ThreadContext :=
  mkThreadContext v (waiter c) (request_threads c) (callback_threads c).
Definition set_waiter (v : bool) (c : ThreadContext) : ThreadContext :=
  mkThreadContext (thread_name c) v (request_threads c) (callback_threads c).
Definition set_request_threads (v : gmap nat cap) (c : ThreadContext) : ThreadContext :=
  mkThreadContext (thread_name c) (waiter c) v (callback_threads c).
Definition set_callback_threads (v : gmap nat cap) (c : ThreadContext) : ThreadContext :=
  mkThreadContext (thread_name c) (waiter c) (request_threads c) v.

Inductive tactor := TServer | TWorker.

#[global] Instance tactor_eq_dec : EqDecision tactor.
Proof. solve_decision. Defined.

(** The lambda run by the thread that [makeThread] creates. *)
Inductive worker_pc :=
| W_unstarted
| W_name             (* g_thread_context.thread_name = ... *)
| W_make_waiter      (* g_thread_context.waiter = MakeUnique<Waiter>() *)
| W_publish          (* thread_context.set_value(&g_thread_context) *)
| W_lock             (* line 300: evaluates g_thread_context.waiter->m_mutex *)
| W_locking          (* line 300: in the constructor of the unique_lock *)
| W_call_wait        (* line 303: holds the lock, evaluates g_thread_context.waiter-> *)
| W_wait             (* holds the lock, inside waiter->wait(lock, done) *)
| W_run (f : fn)     (* wait: runs a pending function, lock released *)
| W_relock           (* wait: re-acquires after the function or the cv *)
| W_done             (* wait returned, lock released, thread finished *)
| W_fault (line : nat). (* dereferenced the null g_thread_context.waiter *)

(** [makeThread] followed by the destructor of the Thread proxy, both
    on the event loop thread. *)
Inductive server_pc :=
| S_start            (* std::thread thread(...) *)
| S_get_context      (* thread_context.get_future().get() *)
| S_construct        (* ProxyServer<Thread>(context, std::move(thread)) *)
| S_alive            (* makeThread returned; the proxy exists *)
| T_assert_waiter    (* assert(m_thread_context.waiter.get()) *)
| T_lock             (* unique_lock lock(m_thread_context.waiter->m_mutex) *)
| T_move             (* waiter = std::move(m_thread_context.waiter) *)
| T_assert_idle      (* assert(!waiter->m_fn) *)
| T_clear_request    (* m_thread_context.request_threads.clear() *)
| T_clear_callback   (* m_thread_context.callback_threads.clear() *)
| T_notify           (* waiter->m_cv.notify_all() *)
| T_unlock           (* end of the block: lock released *)
| T_join             (* m_thread.join() *)
| T_free             (* end of the destructor: the local waiter dies *)
| T_done             (* destructor returned after the join *)
| T_returned_early   (* destructor returned at line 257 *)
| T_aborted.

Inductive tevent :=
| TSpawn | TLock | TClearWaiter | TAssertIdle | TClearRequest | TClearCallback
| TNotify | TUnlock | TJoin | TFree
| TWorkerLock | TWorkerExit.

#[global] Instance worker_pc_eq_dec : EqDecision worker_pc.
Proof. solve_decision. Defined.
#[global] Instance server_pc_eq_dec : EqDecision server_pc.
Proof. solve_decision. Defined.
#[global] Instance tevent_eq_dec : EqDecision tevent.
Proof. solve_decision. Defined.

Record tworld := mkTWorld {
  m_exe_name : string;          (* m_connection.m_loop.m_exe_name *)
  from : string;                (* context.getParams().getName() *)
  g_thread_context : ThreadContext;   (* thread-local of the worker *)
  waiter_mutex : option tactor; (* Waiter::m_mutex of the worker's Waiter *)
  m_fn : option fn;             (* Waiter::m_fn *)
  waiter_freed : bool;          (* the Waiter object was destroyed *)
  promise : bool;               (* thread_context has a value *)
  m_thread : bool;              (* m_thread.joinable() *)
  pc_worker : worker_pc;
  pc_server : server_pc;
  ttrace : list tevent;         (* newest first *)
}.

Definition upd_context (g : ThreadContext -> ThreadContext) (w : tworld) : tworld :=
  mkTWorld (m_exe_name w) (from w) (g (g_thread_context w)) (waiter_mutex w) (m_fn w)
           (waiter_freed w) (promise w) (m_thread w) (pc_worker w) (pc_server w) (ttrace w).
Definition set_waiter_mutex (v : option tactor) (w : tworld) : tworld :=
  mkTWorld (m_exe_name w) (from w) (g_thread_context w) v (m_fn w)
           (waiter_freed w) (promise w) (m_thread w) (pc_worker w) (pc_server w) (ttrace w).
Definition set_m_fn (v : option fn) (w : tworld) : tworld :=
  mkTWorld (m_exe_name w) (from w) (g_thread_context w) (waiter_mutex w) v
           (waiter_freed w) (promise w) (m_thread w) (pc_worker w) (pc_server w) (ttrace w).
Definition set_waiter_freed (v : bool) (w : tworld) : tworld :=
  mkTWorld (m_exe_name w) (from w) (g_thread_context w) (waiter_mutex w) (m_fn w)
           v (promise w) (m_thread w) (pc_worker w) (pc_server w) (ttrace w).
Definition set_promise (v : bool) (w : tworld) : tworld :=
  mkTWorld (m_exe_name w) (from w) (g_thread_context w) (waiter_mutex w) (m_fn w)
           (waiter_freed w) v (m_thread w) (pc_worker w) (pc_server w) (ttrace w).
Definition set_m_thread (v : bool) (w : tworld) : tworld :=
  mkTWorld (m_exe_name w) (from w) (g_thread_context w) (waiter_mutex w) (m_fn w)
           (waiter_freed w) (promise w) v (pc_worker w) (pc_server w) (ttrace w).
Definition set_pc_worker (v : worker_pc) (w : tworld) : tworld :=
  mkTWorld (m_exe_name w) (from w) (g_thread_context w) (waiter_mutex w) (m_fn w)
           (waiter_freed w) (promise w) (m_thread w) v (pc_server w) (ttrace w).
Definition set_pc_server (v : server_pc) (w : tworld) : tworld :=
  mkTWorld (m_exe_name w) (from w) (g_thread_context w) (waiter_mutex w) (m_fn w)
           (waiter_freed w) (promise w) (m_thread w) (pc_worker w) v (ttrace w).
Definition temit (e : tevent) (w : tworld) : tworld :=
  mkTWorld (m_exe_name w) (from w) (g_thread_context w) (waiter_mutex w) (m_fn w)
           (waiter_freed w) (promise w) (m_thread w) (pc_worker w) (pc_server w)
           (e :: ttrace w).

Definition tacquire (a : tactor) (w : tworld) : option tworld :=
  match waiter_mutex w with
  | None => Some (set_waiter_mutex (Some a) w)
  | Some _ => None
  end.

(** The worker has dereferenced the null pointer. *)
Definition crashed (w : tworld) : bool :=
  match pc_worker w with W_fault _ => true | _ => false end.

Section ThreadNames.

(** [ThreadName(exe_name)] is declared in [util.h], which is not among
    the sources; it is a parameter of the model. *)
Variable ThreadName : string -> string.

(** [LongThreadName], lines 314-317, on a thread whose thread-local
    context is [c]. *)
Definition LongThreadName (c : ThreadContext) (exe_name : string) : string :=
  if decide (thread_name c = "") then ThreadName exe_name else thread_name c.

(** The prefix [LogIpc] puts in front of every log line ([proxy.h],
    line 387: the format is ["{%s} " format]). *)
Definition LogIpc_prefix (c : ThreadContext) (exe_name : string) : string :=
  "{" +:+ LongThreadName c exe_name +:+ "} ".

(** The worker thread.

    Lines 300 and 303 both go through the pointer
    [g_thread_context.waiter], which the destructor of the proxy sets to
    null (line 269) and which the worker reads without holding the
    Waiter's lock.  Dereferencing it when it is null is undefined
    behaviour; the worker then ends in [W_fault], with the line.

    Modelled from the spec: [Waiter::wait] is defined in [proxy-io.h],
    which is not among the sources.  Section 4.1 of the specification:
    "wait(predicate) blocks until predicate holds, consuming and
    running any pending function as it becomes visible".  The
    predicate passed here is [!g_thread_context.waiter]. *)
Definition worker_step (w : tworld) : option tworld :=
  match pc_worker w with
  | W_unstarted => None
  | W_name =>
      Some (set_pc_worker W_make_waiter
              (upd_context
                 (set_thread_name (ThreadName (m_exe_name w) +:+ " (from " +:+ from w +:+ ")"))
                 w))
  | W_make_waiter =>
      Some (set_pc_worker W_publish
              (set_m_fn None (set_waiter_mutex None (upd_context (set_waiter true) w))))
  | W_publish => Some (set_pc_worker W_lock (set_promise true w))
  | W_lock =>
      if waiter (g_thread_context w)
      then Some (set_pc_worker W_locking w)
      else Some (set_pc_worker (W_fault 300) w)
  | W_locking => set_pc_worker W_call_wait <$> (temit TWorkerLock <$> tacquire TWorker w)
  | W_call_wait =>
      if waiter (g_thread_context w)
      then Some (set_pc_worker W_wait w)
      else Some (set_pc_worker (W_fault 303) w)
  | W_wait =>
      match m_fn w with
      | Some f => Some (set_pc_worker (W_run f) (set_waiter_mutex None (set_m_fn None w)))
      | None =>
          if waiter (g_thread_context w)
          then Some (set_pc_worker W_relock (set_waiter_mutex None w))
          else Some (set_pc_worker W_done (temit TWorkerExit (set_waiter_mutex None w)))
      end
  | W_run f => Some (set_pc_worker W_relock w)
  | W_relock => set_pc_worker W_wait <$> tacquire TWorker w
  | W_done | W_fault _ => None
  end.

(** [makeThread], then the destructor of the proxy it returned. *)
Definition server_step (w : tworld) : option tworld :=
  match pc_server w with
  | S_start =>
      Some (set_pc_server S_get_context
              (temit TSpawn (set_m_thread true (set_pc_worker W_name w))))
  | S_get_context =>
      if promise w then Some (set_pc_server S_construct w) else None
  | S_construct =>
      (* ProxyServer<Thread>::ProxyServer: assert(waiter.get() != nullptr) *)
      if waiter (g_thread_context w)
      then Some (set_pc_server S_alive w)
      else Some (set_pc_server T_aborted w)
  | S_alive =>
      (* ~ProxyServer: if (!m_thread.joinable()) return; *)
      if m_thread w
      then Some (set_pc_server T_assert_waiter w)
      else Some (set_pc_server T_returned_early w)
  | T_assert_waiter =>
      if waiter (g_thread_context w)
      then Some (set_pc_server T_lock w)
      else Some (set_pc_server T_aborted w)
  | T_lock => set_pc_server T_move <$> (temit TLock <$> tacquire TServer w)
  | T_move =>
      Some (set_pc_server T_assert_idle
              (temit TClearWaiter (upd_context (set_waiter false) w)))
  | T_assert_idle =>
      match m_fn w with
      | None => Some (set_pc_server T_clear_request (temit TAssertIdle w))
      | Some _ => Some (set_pc_server T_aborted w)
      end
  | T_clear_request =>
      Some (set_pc_server T_clear_callback
              (temit TClearRequest (upd_context (set_request_threads ∅) w)))
  | T_clear_callback =>
      Some (set_pc_server T_notify
              (temit TClearCallback (upd_context (set_callback_threads ∅) w)))
  | T_notify => Some (set_pc_server T_unlock (temit TNotify w))
  | T_unlock => Some (set_pc_server T_join (temit TUnlock (set_waiter_mutex None w)))
  | T_join =>
      match pc_worker w with
      | W_done => Some (set_pc_server T_free (temit TJoin (set_m_thread false w)))
      | _ => None
      end
  | T_free => Some (set_pc_server T_done (temit TFree (set_waiter_freed true w)))
  | T_done | T_returned_early | T_aborted => None
  end.

(** After the null pointer dereference the process is gone (the fault
    kills it): no thread takes another step. *)
Definition tstep (a : tactor) (w : tworld) : option tworld :=
  if crashed w then None
  else match a with
       | TServer => server_step w
       | TWorker => worker_step w
       end.

Fixpoint trun (sched : list tactor) (w : tworld) : option tworld :=
  match sched with
  | [] => Some w
  | a :: rest =>
      match tstep a w with
      | Some w' => trun rest w'
      | None => None
      end
  end.

End ThreadNames.

(** The state in which [makeThread] is called: the worker does not
    exist, so its thread-local context is still default-constructed,
    except that the per-connection maps are given arbitrary contents
    (they are filled by code outside [proxy.cpp] once the thread
    serves calls). *)
Definition tinitial (exe_name name : string) (req cb : gmap nat cap) : tworld :=
  mkTWorld exe_name name (mkThreadContext "" false req cb) None None false false false
           W_unstarted S_start [].

(** * Part II: vocabulary of the properties *)

(** ** The mutex has the owner the program counters say *)

Definition loop_holds (pc : loop_pc) : bool :=
  match pc with L_locked | L_clear => true | _ => false end.
Definition async_holds (pc : async_pc) : bool :=
  match pc with A_top | A_pop | A_remove | A_aborted => true | _ => false end.
Definition conn_holds (pc : conn_pc) : bool :=
  match pc with
  | D_push | D_start_async | D_remove | D_unlock | D_aborted => true
  | _ => false
  end.
Definition user_holds (pc : user_pc) : bool :=
  match pc with U_locked | U_relocked | U_aborted => true | _ => false end.

Record mutex_ok (w : world) : Prop := {
  mutex_loop : loop_holds (pc_loop w) = true <-> m_mutex (ev_loop w) = Some ALoop;
  mutex_async : async_holds (pc_async w) = true <-> m_mutex (ev_loop w) = Some AAsync;
  mutex_conn : conn_holds (pc_conn w) = true <-> m_mutex (ev_loop w) = Some AConn;
  mutex_user : forall i c pc, users w !! i = Some (c, pc) ->
    (user_holds pc = true <-> m_mutex (ev_loop w) = Some (AUser i));
}.

(** ** The client counter equals the number of references held *)

Definition conn_ref (pc : conn_pc) : Z :=
  match pc with
  | D_alive | D_sync | D_sync_running _ | D_async | D_push | D_final_lock
  | D_start_async | D_remove | D_aborted => 1
  | _ => 0
  end.

(** The dispatcher holds a reference from [addClient] to [removeClient]. *)
Definition async_ref (pc : async_pc) : Z :=
  match pc with
  | A_pop | A_running _ | A_relock | A_remove | A_aborted => 1
  | _ => 0
  end.

Definition user_ref (u : call * user_pc) : Z :=
  match u with
  | (CallRemoveClient, U_locked) | (CallRemoveClient, U_aborted) => 1
  | _ => 0
  end.

Definition user_refs (us : list (call * user_pc)) : Z :=
  foldr (fun u s => (user_ref u + s)%Z) 0%Z us.

Record count_ok (w : world) : Prop := {
  count_refs :
    m_num_clients (ev_loop w)
    = (Z.of_nat (env_refs w) + conn_ref (pc_conn w) + async_ref (pc_async w)
       + user_refs (users w))%Z;
  count_thread : m_async_thread (ev_loop w) = false -> pc_async w = A_unstarted;
}.


(** ** The Connection's lists and the trace *)

(** Projections of the trace (newest event first). *)
Definition sync_regs (tr : list event) : list fn :=
  omap (fun e => match e with EvRegSync f => Some f | _ => None end) tr.
Definition async_regs (tr : list event) : list fn :=
  omap (fun e => match e with EvRegAsync f => Some f | _ => None end) tr.
Definition sync_begins (tr : list event) : list fn :=
  omap (fun e => match e with EvBegin AConn f => Some f | _ => None end) tr.
Definition sync_ends (tr : list event) : list fn :=
  omap (fun e => match e with EvEnd AConn f => Some f | _ => None end) tr.
Definition defers (tr : list event) : list fn :=
  omap (fun e => match e with EvDefer f => Some f | _ => None end) tr.

(** The same in the order in which things happened. *)
Definition registered_sync (w : world) : list fn := rev (sync_regs (trace w)).
Definition registered_async (w : world) : list fn := rev (async_regs (trace w)).
Definition sync_run_order (w : world) : list fn := rev (sync_begins (trace w)).
Definition defer_order (w : world) : list fn := rev (defers (trace w)).

(** Events that belong to the asynchronous phase of the teardown. *)
Definition after_sync (e : event) : bool :=
  match e with
  | EvDefer _ | EvStartAsync | EvBegin AAsync _ | EvEnd AAsync _ => true
  | _ => false
  end.

Definition is_reg (e : event) : bool :=
  match e with EvRegSync _ | EvRegAsync _ => true | _ => false end.

(** Every registered synchronous cleanup has returned. *)
Definition sync_complete (tr : list event) : Prop :=
  forall g, In (EvRegSync g) tr -> In (EvEnd AConn g) tr.

(** Every registered asynchronous cleanup is in the deferred queue. *)
Definition transfer_complete (tr : list event) : Prop :=
  forall f, In (EvRegAsync f) tr -> In (EvDefer f) tr.

(** The order of the trace: when an event of the asynchronous phase
    happened, the synchronous phase was complete; when the dispatcher
    was requested, the transfer was complete; nothing was registered
    after the asynchronous phase began; and the dispatcher ran a
    function only after it had been requested. *)
Fixpoint well_ordered (tr : list event) : Prop :=
  match tr with
  | [] => True
  | e :: older =>
      (after_sync e = true -> sync_complete older)
      /\ (e = EvStartAsync -> transfer_complete older)
      /\ (is_reg e = true -> Forall (fun x => after_sync x = false) older)
      /\ (forall f, e = EvBegin AAsync f -> In EvStartAsync older)
      /\ well_ordered older
  end.

(** Program points of [~Connection] by phase. *)
Definition in_sync_phase (pc : conn_pc) : bool :=
  match pc with D_alive | D_sync | D_sync_running _ => true | _ => false end.
Definition in_transfer_phase (pc : conn_pc) : bool :=
  match pc with D_async | D_push => true | _ => false end.
Definition before_start (pc : conn_pc) : bool :=
  match pc with
  | D_alive | D_sync | D_sync_running _ | D_async | D_push | D_final_lock
  | D_start_async => true
  | _ => false
  end.

Record conn_ok (w : world) : Prop := {
  (* the synchronous list against what has been registered and run *)
  conn_sync :
    match pc_conn w with
    | D_alive =>
        m_sync_cleanup_fns (conn w) = sync_regs (trace w)
        /\ sync_begins (trace w) = [] /\ sync_ends (trace w) = []
    | D_sync =>
        rev (sync_begins (trace w)) ++ m_sync_cleanup_fns (conn w) = sync_regs (trace w)
        /\ sync_ends (trace w) = sync_begins (trace w)
    | D_sync_running f =>
        exists rest, m_sync_cleanup_fns (conn w) = f :: rest
        /\ rev (sync_begins (trace w)) ++ rest = sync_regs (trace w)
        /\ sync_begins (trace w) = f :: sync_ends (trace w)
    | _ =>
        m_sync_cleanup_fns (conn w) = []
        /\ rev (sync_begins (trace w)) = sync_regs (trace w)
        /\ sync_ends (trace w) = sync_begins (trace w)
    end;
  (* the asynchronous list against what has been registered and deferred *)
  conn_async :
    match pc_conn w with
    | D_alive | D_sync | D_sync_running _ =>
        m_async_cleanup_fns (conn w) = async_regs (trace w) /\ defers (trace w) = []
    | D_async | D_push =>
        rev (defers (trace w)) ++ m_async_cleanup_fns (conn w) = async_regs (trace w)
    | _ =>
        m_async_cleanup_fns (conn w) = []
        /\ rev (defers (trace w)) = async_regs (trace w)
    end;
  conn_push : pc_conn w = D_push -> m_async_cleanup_fns (conn w) <> [];
  (* nothing of the asynchronous phase happens during the synchronous one *)
  conn_early :
    in_sync_phase (pc_conn w) = true -> Forall (fun x => after_sync x = false) (trace w);
  (* the dispatcher does not exist before startAsyncThread, and until
     then the deferred queue holds exactly what has been transferred *)
  conn_queue :
    before_start (pc_conn w) = true ->
    pc_async w = A_unstarted /\ m_async_fns (ev_loop w) = rev (defers (trace w));
  conn_started : pc_async w <> A_unstarted -> In EvStartAsync (trace w);
  conn_order : well_ordered (trace w);
}.

(** ** Posted functions *)











(** ** Completion of posts *)





(** ** The wake-channel descriptors *)

Definition is_close (e : event) : bool :=
  match e with EvClose _ => true | _ => false end.

(** What the loop thread has done to the two descriptors, by program
    point: [wait_fd] and [post_fd] are the descriptors the EventLoop was
    constructed with. *)
Definition fds_ok (wait_fd post_fd : Z) (w : world) : Prop :=
  match pc_loop w with
  | L_close_post =>
      m_wait_fd (ev_loop w) = (-1)%Z /\ m_post_fd (ev_loop w) = post_fd
      /\ filter (fun e => is_close e = true) (trace w) = [EvClose wait_fd]
  | L_done =>
      m_wait_fd (ev_loop w) = (-1)%Z /\ m_post_fd (ev_loop w) = (-1)%Z
      /\ filter (fun e => is_close e = true) (trace w) = [EvClose post_fd; EvClose wait_fd]
  | L_threw =>
      m_wait_fd (ev_loop w) = wait_fd /\ m_post_fd (ev_loop w) = post_fd
      /\ filter (fun e => is_close e = true) (trace w) = [EvClose wait_fd]
  | _ =>
      m_wait_fd (ev_loop w) = wait_fd /\ m_post_fd (ev_loop w) = post_fd
      /\ filter (fun e => is_close e = true) (trace w) = []
  end.

(** ** The schedule on which the loop exits during a deferred action *)

(** One asynchronous cleanup function (7); the Connection is destroyed
    while the loop thread waits; the loop thread wakes up and reads a
    zero client count; the dispatcher takes the function and starts it;
    the loop thread reads an empty queue. *)
Definition race_schedule : list label :=
  [LLoop 1; LRegAsync 7] ++ replicate 11 LConn ++ replicate 5 (LLoop 1)
  ++ replicate 3 LAsync ++ [LLoop 1].

(** ** Thread proxy: vocabulary *)

(** The actions of [~ProxyServer<Thread>]. *)
Definition dtor_event (e : tevent) : bool :=
  match e with
  | TLock | TClearWaiter | TAssertIdle | TClearRequest | TClearCallback
  | TNotify | TUnlock | TJoin | TFree => true
  | _ => false
  end.

(** The source order of these actions, lines 266-282. *)
Definition teardown_order : list tevent :=
  [TLock; TClearWaiter; TAssertIdle; TClearRequest; TClearCallback;
   TNotify; TUnlock; TJoin; TFree].

(** How many of them have been performed at a program point. *)
Definition dtor_progress (pc : server_pc) : nat :=
  match pc with
  | S_start | S_get_context | S_construct | S_alive | T_assert_waiter
  | T_lock | T_returned_early | T_aborted => 0
  | T_move => 1
  | T_assert_idle => 2
  | T_clear_request => 3
  | T_clear_callback => 4
  | T_notify => 5
  | T_unlock => 6
  | T_join => 7
  | T_free => 8
  | T_done => 9
  end.

(** In trace [tr] every [b] is preceded by an [a]. *)
Definition precedes (a b : tevent) (tr : list tevent) : Prop :=
  forall newer older, tr = newer ++ b :: older -> In a older.

Definition worker_started (pc : worker_pc) : bool :=
  match pc with W_unstarted | W_name => false | _ => true end.
Definition worker_has_waiter (pc : worker_pc) : bool :=
  match pc with W_unstarted | W_name | W_make_waiter => false | _ => true end.
Definition worker_published (pc : worker_pc) : bool :=
  match pc with W_unstarted | W_name | W_make_waiter | W_publish => false | _ => true end.
(** The worker holds the Waiter's lock (a fault at line 303 happens
    with the lock held). *)
Definition worker_holds (pc : worker_pc) : bool :=
  match pc with
  | W_call_wait | W_wait => true
  | W_fault line => bool_decide (line = 303)
  | _ => false
  end.
(** The worker is inside [wait], or past it. *)
Definition parked (pc : worker_pc) : bool :=
  match pc with W_wait | W_run _ | W_relock | W_done => true | _ => false end.
Definition server_holds (pc : server_pc) : bool :=
  match pc with
  | T_move | T_assert_idle | T_clear_request | T_clear_callback | T_notify
  | T_unlock => true
  | _ => false
  end.
Definition proxy_exists (pc : server_pc) : bool :=
  match pc with S_start | S_get_context => false | _ => true end.
Definition requests_cleared (pc : server_pc) : bool :=
  match pc with
  | T_clear_callback | T_notify | T_unlock | T_join | T_free | T_done => true
  | _ => false
  end.
Definition maps_cleared (pc : server_pc) : bool :=
  match pc with T_notify | T_unlock | T_join | T_free | T_done => true | _ => false end.
Definition waiter_taken (pc : server_pc) : bool :=
  match pc with
  | T_assert_idle | T_clear_request | T_clear_callback | T_notify | T_unlock
  | T_join | T_free | T_done => true
  | _ => false
  end.

Section ThreadInvariant.

Variable ThreadName : string -> string.
Variables (exe_name name : string).

Record thread_ok (w : tworld) : Prop := {
  t_params : m_exe_name w = exe_name /\ from w = name;
  (* the destructor's actions so far are a prefix of the source order *)
  t_order :
    pc_server w <> T_aborted ->
    rev (filter (fun e => dtor_event e = true) (ttrace w))
    = take (dtor_progress (pc_server w)) teardown_order;
  t_requests :
    requests_cleared (pc_server w) = true -> request_threads (g_thread_context w) = ∅;
  t_maps :
    maps_cleared (pc_server w) = true -> callback_threads (g_thread_context w) = ∅;
  t_name :
    worker_started (pc_worker w) = true ->
    thread_name (g_thread_context w)
    = ThreadName exe_name +:+ " (from " +:+ name +:+ ")";
  (* the shared pointer is null exactly before the worker sets it and
     after the destructor took it *)
  t_waiter :
    waiter (g_thread_context w)
    = worker_has_waiter (pc_worker w) && negb (waiter_taken (pc_server w));
  t_taken : waiter_taken (pc_server w) = true -> In TClearWaiter (ttrace w);
  t_idle : m_fn w = None;
  t_promise : promise w = worker_published (pc_worker w);
  t_spawned : pc_server w = S_start <-> pc_worker w = W_unstarted;
  t_exists : proxy_exists (pc_server w) = true -> worker_published (pc_worker w) = true;
  t_joinable :
    m_thread w = negb (bool_decide (pc_server w = S_start))
                 && negb (bool_decide (pc_server w = T_free))
                 && negb (bool_decide (pc_server w = T_done));
  t_mutex_server : server_holds (pc_server w) = true <-> waiter_mutex w = Some TServer;
  t_mutex_worker : worker_holds (pc_worker w) = true <-> waiter_mutex w = Some TWorker;
  (* the worker faults only on a pointer the destructor has taken *)
  t_fault : crashed w = true -> waiter_taken (pc_server w) = true;
  t_exit : pc_worker w = W_done <-> In TWorkerExit (ttrace w);
  t_joined : pc_server w = T_free \/ pc_server w = T_done -> pc_worker w = W_done;
  t_freed : waiter_freed w = true -> pc_server w = T_done;
  t_no_abort : pc_server w <> T_aborted /\ pc_server w <> T_returned_early;
  t_exit_after_signal : precedes TClearWaiter TWorkerExit (ttrace w);
  t_join_after_exit : precedes TWorkerExit TJoin (ttrace w);
}.

End ThreadInvariant.

(** [makeThread] and the destruction of the proxy, with the worker
    parked in [wait] before the destructor starts: spawn; the worker
    runs up to its first wait; the server gets the context, builds the
    proxy and runs the destructor up to the join; the worker wakes up
    and leaves; the server joins and returns. *)
Definition thread_lifecycle : list tactor :=
  [TServer] ++ replicate 7 TWorker ++ replicate 11 TServer
  ++ replicate 2 TWorker ++ replicate 2 TServer.

(** What [thread_lifecycle] emits, oldest first. *)
Definition thread_lifecycle_events : list tevent :=
  [TSpawn; TWorkerLock] ++ take 7 teardown_order ++ [TWorkerExit; TJoin; TFree].

(** [makeThread] followed immediately by the destruction of the proxy:
    the worker has set the promise (line 299) and is about to execute
    line 300 when the event loop thread gets the context, builds the
    proxy and runs the destructor up to the join. *)
Definition thread_race : list tactor :=
  [TServer] ++ replicate 3 TWorker ++ replicate 11 TServer.

(** The same, except that the worker has already evaluated the pointer
    of line 300 and is about to lock; after the destructor has released
    the lock the worker gets it and goes on to line 303. *)
Definition thread_race_late : list tactor :=
  [TServer] ++ replicate 4 TWorker ++ replicate 11 TServer ++ replicate 2 TWorker.

(** A name function for the examples. *)
Definition ThreadName_example (exe_name : string) : string :=
  exe_name +:+ "-123/main-456".

(** A proxy whose thread handle is not joinable, in a context with
    non-empty maps. *)
Definition detached_proxy : tworld :=
  mkTWorld "bitcoin-node" "x"
           (mkThreadContext "w" true {[1 := 5]} {[2 := 6]})
           None None false true false W_relock S_alive [TWorkerLock; TSpawn].
(** ** Example schedules and states *)

(** A teardown with two synchronous and two asynchronous cleanup
    functions, up to the moment the dispatcher starts the first
    deferred function. *)
Definition teardown_schedule : list label :=
  [LLoop 1; LRegSync 1; LRegSync 2; LRegAsync 7; LRegAsync 8]
  ++ replicate 17 LConn ++ replicate 3 LAsync.

Definition teardown_world : world :=
  Eval vm_compute in
    default (initial 3 4 0 []) (run teardown_schedule (initial 3 4 0 [])).

(** The teardown continued until the dispatcher is back at the top of
    its loop with nothing left to do. *)
Definition dispatcher_idle_world : world :=
  Eval vm_compute in
    default (initial 3 4 0 [])
      (run (teardown_schedule ++ replicate 12 LAsync) (initial 3 4 0 [])).



(** A clean shutdown: the Connection is destroyed with empty cleanup
    lists and the loop thread then runs to the end of [loop]. *)
Definition shutdown_schedule : list label :=
  [LLoop 1] ++ replicate 9 LConn ++ replicate 8 (LLoop 1).

Definition shutdown_world : world :=
  Eval vm_compute in
    default (initial 3 4 0 []) (run shutdown_schedule (initial 3 4 0 [])).

(** ** The state in which an EventLoop may be destroyed *)

(** The conditions of the destructor's five assertions. *)
Definition idle (l : EventLoop) : Prop :=
  m_post_fn l = None /\ m_async_fns l = [] /\ m_wait_fd l = (-1)%Z
  /\ m_post_fd l = (-1)%Z /\ m_num_clients l = 0%Z.


(** * Part II-b: further parts of the source *)

(** ** Cleanup lists with their iterators

    [CleanupList] is a [std::list] ([proxy.h], lines 22-23).
    [Connection::addSyncCleanup] returns the iterator of the element it
    inserted and [Connection::removeSyncCleanup] erases by iterator
    (lines 108-118).  The Connection of Part I keeps only the functions
    of a list; here every element also carries the address of its list
    node, which is what a [std::list] iterator denotes. *)
Module Iter.

Definition CleanupIt := nat.
Abbreviation CleanupList := (list (CleanupIt * fn)).

Record Connection := mkConnection {
  m_sync_cleanup_fns : CleanupList;
  m_async_cleanup_fns : CleanupList;
}.

(** [l.emplace(l.begin(), fn)] when the allocator hands out the node
    [node]: the new element is first and its iterator is returned. *)
Definition emplace_begin (node : CleanupIt) (f : fn) (l : CleanupList)
    : CleanupList * CleanupIt :=
  ((node, f) :: l, node).

(** [l.erase(it)].  The behaviour is undefined ([None]) unless [it] is
    the iterator of an element of [l]. *)
Fixpoint erase (it : CleanupIt) (l : CleanupList) : option CleanupList :=
  match l with
  | [] => None
  | (n, f) :: rest =>
      if decide (n = it) then Some rest
      else match erase it rest with
           | Some rest' => Some ((n, f) :: rest')
           | None => None
           end
  end.

(** [Connection::addSyncCleanup], lines 108-112. *)
Definition addSyncCleanup (node : CleanupIt) (f : fn) (c : Connection)
    : Connection * CleanupIt :=
  let r := emplace_begin node f (m_sync_cleanup_fns c) in
  (mkConnection r.1 (m_async_cleanup_fns c), r.2).

(** [Connection::removeSyncCleanup], lines 114-118. *)
Definition removeSyncCleanup (it : CleanupIt) (c : Connection) : option Connection :=
  match erase it (m_sync_cleanup_fns c) with
  | Some l => Some (mkConnection l (m_async_cleanup_fns c))
  | None => None
  end.

(** [Connection::addAsyncCleanup], lines 120-124: the iterator is
    dropped. *)
Definition addAsyncCleanup (node : CleanupIt) (f : fn) (c : Connection) : Connection :=
  mkConnection (m_sync_cleanup_fns c)
               (emplace_begin node f (m_async_cleanup_fns c)).1.

(** The function an iterator denotes. *)
Fixpoint deref (it : CleanupIt) (l : CleanupList) : option fn :=
  match l with
  | [] => None
  | (n, f) :: rest => if decide (n = it) then Some f else deref it rest
  end.

(** Live list nodes have different addresses. *)
Definition wf (c : Connection) : Prop := NoDup (m_sync_cleanup_fns c).*1.

End Iter.

(** The Connection of Part I is what remains when the node addresses
    are forgotten. *)
Definition forget_iterators (c : Iter.Connection) : Connection :=
  mkConnection (Iter.m_sync_cleanup_fns c).*2 (Iter.m_async_cleanup_fns c).*2.

(** ** Field accessors ([proxy.h], lines 309-374) *)
Module Field.

Definition FIELD_IN : Z := 1.
Definition FIELD_OUT : Z := 2.
Definition FIELD_OPTIONAL : Z := 4.
Definition FIELD_REQUESTED : Z := 8.
Definition FIELD_BOXED : Z := 16.

(** Conversion of an [int] to [bool]. *)
Definition to_bool (v : Z) : bool := negb (v =? 0)%Z.

(** The static members of [Accessor<Field, flags>], lines 366-374
    ([in] is written [in_]). *)
Record Accessor := mkAccessor {
  in_ : bool;
  out : bool;
  optional : bool;
  requested : bool;
  boxed : bool;
}.

Definition accessor (flags : Z) : Accessor :=
  mkAccessor (to_bool (Z.land flags FIELD_IN))
             (to_bool (Z.land flags FIELD_OUT))
             (to_bool (Z.land flags FIELD_OPTIONAL))
             (to_bool (Z.land flags FIELD_REQUESTED))
             (to_bool (Z.land flags FIELD_BOXED)).

(** The flag word of a set of properties, as the code generator
    composes it with [|]. *)
Definition flag (b : bool) (bit : Z) : Z := if b then bit else 0%Z.
Definition flags_of (a : Accessor) : Z :=
  Z.lor (flag (in_ a) FIELD_IN)
    (Z.lor (flag (out a) FIELD_OUT)
       (Z.lor (flag (optional a) FIELD_OPTIONAL)
          (Z.lor (flag (requested a) FIELD_REQUESTED)
             (flag (boxed a) FIELD_BOXED)))).

Section StructField.

Variable Struct : Type.

(** The static member functions of the accessor that
    [StructField] forwards to. *)
Record Methods := mkMethods {
  getHas : Struct -> bool;
  has_ : Struct -> bool;
  getWant : Struct -> bool;
  setHas : Struct -> Struct;
  setWant : Struct -> Struct;
}.

(** The overloads of a member that survive [std::enable_if], in the
    order of the source. *)
Definition enabled {R : Type} (cond : bool) (f : R) : list R :=
  if cond then [f] else [].

Definition has_overloads (a : Accessor) (m : Methods) : list (Struct -> bool) :=
  enabled (optional a) (getHas m)
  ++ enabled (negb (optional a) && boxed a) (has_ m)
  ++ enabled (negb (optional a) && negb (boxed a)) (fun _ => true).

Definition want_overloads (a : Accessor) (m : Methods) : list (Struct -> bool) :=
  enabled (requested a) (getWant m)
  ++ enabled (negb (requested a)) (fun _ => true).

Definition setHas_overloads (a : Accessor) (m : Methods) : list (Struct -> Struct) :=
  enabled (optional a) (setHas m)
  ++ enabled (negb (optional a)) (fun s => s).

Definition setWant_overloads (a : Accessor) (m : Methods) : list (Struct -> Struct) :=
  enabled (requested a) (setWant m)
  ++ enabled (negb (requested a)) (fun s => s).

(** A call compiles when exactly one overload is enabled, and then
    runs it. *)
Definition call {R : Type} (overloads : list (Struct -> R)) (s : Struct) : option R :=
  match overloads with
  | [f] => Some (f s)
  | _ => None
  end.

End StructField.

End Field.

(** ** Vocabulary for the properties of this part *)

(** Deferred functions the dispatcher has started and finished, newest
    first. *)
Definition async_begins (tr : list event) : list fn :=
  omap (fun e => match e with EvBegin AAsync f => Some f | _ => None end) tr.
Definition async_ends (tr : list event) : list fn :=
  omap (fun e => match e with EvEnd AAsync f => Some f | _ => None end) tr.

(** The same in the order in which they were started. *)
Definition dispatch_order (w : world) : list fn := rev (async_begins (trace w)).

Definition running_async (pc : async_pc) : list fn :=
  match pc with A_running f => [f] | _ => [] end.

Record dispatch_ok (w : world) : Prop := {
  dispatch_queue :
    rev (async_begins (trace w)) ++ m_async_fns (ev_loop w) = rev (defers (trace w));
  dispatch_running :
    async_begins (trace w) = running_async (pc_async w) ++ async_ends (trace w);
}.

(** Thread [a] is at a program point inside a section guarded by
    [m_mutex]. *)
Definition holds (a : actor) (w : world) : bool :=
  match a with
  | ALoop => loop_holds (pc_loop w)
  | AAsync => async_holds (pc_async w)
  | AConn => conn_holds (pc_conn w)
  | AUser i =>
      match users w !! i with
      | Some (_, pc) => user_holds pc
      | None => false
      end
  end.

(** The thread that takes the step of a label.  A registration is an
    atomic step of its caller, which is none of the modelled threads. *)
Definition actor_of (l : label) : option actor :=
  match l with
  | LLoop _ => Some ALoop
  | LAsync => Some AAsync
  | LConn => Some AConn
  | LUser i => Some (AUser i)
  | LRegSync _ | LRegAsync _ => None
  end.

(** The members of the EventLoop that the source changes only inside
    sections guarded by [m_mutex]. *)
Definition guarded (l : EventLoop) : option fn * list fn * Z * bool :=
  (m_post_fn l, m_async_fns l, m_num_clients l, m_async_thread l).

(** The loop thread is inside [loop()]. *)
Definition in_loop (pc : loop_pc) : bool :=
  match pc with L_start | L_done | L_threw | L_aborted => false | _ => true end.

(** No [assert] has failed, and the flag of line 153 is set exactly
    inside [loop()]. *)
Record asserts_ok (w : world) : Prop := {
  assert_flag : loop_thread w = in_loop (pc_loop w);
  assert_loop : pc_loop w <> L_aborted;
  assert_async : pc_async w <> A_aborted;
  assert_conn : pc_conn w <> D_aborted;
  assert_users : forall i c, users w !! i <> Some (c, U_aborted);
}.

(** Some thread's [KJ_SYSCALL(write(m_post_fd, ...))] has thrown. *)
Definition write_failed (w : world) : Prop :=
  pc_conn w = D_threw \/ pc_async w = A_threw
  \/ exists i c, users w !! i = Some (c, U_threw).

(** [ProxyServer<Thread>::getName], lines 284-288: the result is
    [m_thread_context.thread_name], the context being the worker's. *)
Definition getName (w : tworld) : string := thread_name (g_thread_context w).

(** ** Example states of this part *)

(** The end of the schedule on which the loop exits during a deferred
    function: the dispatcher's write has failed. *)
Definition race_final_world : world :=
  Eval vm_compute in
    default (initial 3 4 0 [])
      (run (race_schedule ++ [LLoop 1; LLoop 1] ++ replicate 4 LAsync)
           (initial 3 4 0 [])).

(** The same schedule when the loop thread has destroyed [wait_stream]
    but not yet closed [m_post_fd]: the dispatcher's write fails on the
    open descriptor. *)
Definition race_epipe_world : world :=
  Eval vm_compute in
    default (initial 3 4 0 [])
      (run (race_schedule ++ [LLoop 1] ++ replicate 4 LAsync) (initial 3 4 0 [])).

(** The Connection of an EventLoop with one more client registers one
    asynchronous cleanup function and is destroyed; the dispatcher runs
    the function and then waits, under [m_cv], for the last client. *)
Definition parked_schedule : list label :=
  [LLoop 1; LRegAsync 7] ++ replicate 9 LConn ++ replicate 7 LAsync.

Definition parked_world : world :=
  Eval vm_compute in
    default (initial 3 4 1 []) (run parked_schedule (initial 3 4 1 [])).






(** The end of [thread_lifecycle] for a caller named x. *)
Definition thread_final_world : tworld :=
  Eval vm_compute in
    default (tinitial "bitcoin-node" "x" ∅ ∅)
      (trun ThreadName_example thread_lifecycle (tinitial "bitcoin-node" "x" ∅ ∅)).

(** ** A clean shutdown for arbitrary cleanup lists *)

(** [n] copies of a list one after the other. *)
Definition times {A : Type} (n : nat) (l : list A) : list A := concat (replicate n l).

(** [~Connection] alone from its start to its return, for cleanup lists
    of the given lengths: enter the first loop; two steps for each
    synchronous function; leave the first loop; two steps for each
    transfer; the last seven steps from the final lock to the return. *)
Definition destructor_schedule (n_sync n_async : nat) : list label :=
  [LConn] ++ times n_sync [LConn; LConn] ++ [LConn]
  ++ times n_async [LConn; LConn] ++ replicate 7 LConn.

(** The dispatcher alone, from its creation to its termination: none if
    nothing was deferred; otherwise the lock, seven steps for each
    deferred function, and the exit test. *)
Definition dispatcher_schedule (n_async : nat) : list label :=
  match n_async with
  | 0 => []
  | S _ => [LAsync] ++ times n_async (replicate 7 LAsync) ++ [LAsync]
  end.

(** The loop thread enters [loop]; the functions of [ss] and of [aa]
    are registered in this order; the Connection is destroyed; the
    dispatcher runs; the loop thread takes one turn of its cycle and
    leaves. *)
Definition clean_shutdown (ss aa : list fn) : list label :=
  [LLoop 1] ++ map LRegSync ss ++ map LRegAsync aa
  ++ destructor_schedule (length ss) (length aa)
  ++ dispatcher_schedule (length aa)
  ++ replicate 8 (LLoop 1).

Definition sync_events (l : list fn) : list event :=
  flat_map (fun f => [EvBegin AConn f; EvEnd AConn f]) l.
Definition async_events (l : list fn) : list event :=
  flat_map (fun f => [EvBegin AAsync f; EvEnd AAsync f]) l.

(** What happens on [clean_shutdown], oldest event first. *)
Definition clean_shutdown_events (wait_fd post_fd : Z) (ss aa : list fn) : list event :=
  map EvRegSync ss ++ map EvRegAsync aa
  ++ sync_events (rev ss)
  ++ map EvDefer (rev aa) ++ [EvStartAsync]
  ++ async_events (rev aa)
  ++ [EvClose wait_fd; EvClose post_fd].

(** ** When the exit test of the loop is sound *)

(** The loop thread has passed the first half of its exit test. *)
Definition exiting (pc : loop_pc) : bool :=
  match pc with
  | L_check_async | L_exit | L_close_post | L_done => true
  | _ => false
  end.

(** Nothing in the world can call [addClient]: there is no dispatcher
    and nothing that would create one, and no thread calls
    [AddClient]. *)
Record no_add_client (w : world) : Prop := {
  no_dispatcher : pc_async w = A_unstarted;
  no_queue : m_async_fns (ev_loop w) = [];
  no_async_cleanup : m_async_cleanup_fns (conn w) = [];
  no_add_calls : forall i pc, users w !! i <> Some (CallAddClient, pc);
}.

Definition is_async_registration (l : label) : bool :=
  match l with LRegAsync _ => true | _ => false end.

(** ** How far the Thread proxy is from the end of its destructor *)

(** Statements of the event loop thread still to be executed. *)
Definition server_rank (pc : server_pc) : nat :=
  match pc with
  | S_start => 14
  | S_get_context => 13
  | S_construct => 12
  | S_alive => 11
  | T_assert_waiter => 10
  | T_lock => 9
  | T_move => 8
  | T_assert_idle => 7
  | T_clear_request => 6
  | T_clear_callback => 5
  | T_notify => 4
  | T_unlock => 3
  | T_join => 2
  | T_free => 1
  | T_done | T_returned_early | T_aborted => 0
  end.

(** Steps of the worker until the event loop thread can go on, where it
    waits for the worker: for the promise, for the end of the thread;
    and, before the destructor locks, until the worker is inside [wait]
    and has released the lock there. *)
Definition worker_rank (ps : server_pc) (pw : worker_pc) : nat :=
  match ps with
  | S_get_context =>
      match pw with W_name => 3 | W_make_waiter => 2 | W_publish => 1 | _ => 0 end
  | T_lock =>
      match pw with
      | W_lock => 4
      | W_locking => 3
      | W_call_wait => 2
      | W_wait => 1
      | _ => 0
      end
  | T_join =>
      match pw with
      | W_run _ => 3
      | W_relock => 2
      | W_wait => 1
      | _ => 0
      end
  | _ => 0
  end.

Definition remaining (w : tworld) : nat :=
  5 * server_rank (pc_server w) + worker_rank (pc_server w) (pc_worker w).

(** The destructor holds the Waiter's lock, about to take the pointer
    (line 269), or is past that. *)
Definition committed (pc : server_pc) : bool :=
  match pc with
  | T_move | T_assert_idle | T_clear_request | T_clear_callback | T_notify
  | T_unlock | T_join | T_free | T_done => true
  | _ => false
  end.

(** The worker has not faulted, and it was inside [wait] when the
    destructor got the lock. *)
Definition good (w : tworld) : bool :=
  negb (crashed w) && (negb (committed (pc_server w)) || parked (pc_worker w)).

(** The state after the first eleven steps of [thread_lifecycle]: the
    destructor has just begun and the worker is parked. *)
Definition thread_mid_world : tworld :=
  Eval vm_compute in
    default (tinitial "bitcoin-node" "x" ∅ ∅)
      (trun ThreadName_example (take 11 thread_lifecycle)
            (tinitial "bitcoin-node" "x" ∅ ∅)).

(** The state at the end of [thread_race]: the destructor waits in
    [join], the worker is about to execute line 300. *)
Definition thread_race_world : tworld :=
  Eval vm_compute in
    default (tinitial "bitcoin-node" "x" ∅ ∅)
      (trun ThreadName_example thread_race (tinitial "bitcoin-node" "x" ∅ ∅)).
(** * Part III: invariants of all schedules *)

(** Case analysis on one step: unfolds the step functions in [H] and
    opens every match. *)
Ltac step_inv H :=
  unfold step, loop_step, async_step, conn_step, user_step, post_step,
    add_client_step, remove_client_step, reg_step, startAsyncThread,
    acquire, addClient, removeClient, write_post_fd, wait_stream_open in H;
  repeat (case_match; simplify_eq/=; try done).

(** Use the equations left by [step_inv] in the goal. *)
Ltac use_eqs :=
  repeat match goal with
         | E : pc_loop _ = _ |- context [pc_loop _] => rewrite E
         | E : pc_async _ = _ |- context [pc_async _] => rewrite E
         | E : pc_conn _ = _ |- context [pc_conn _] => rewrite E
         | E : m_mutex _ = _ |- context [m_mutex _] => rewrite E
         | E : m_post_fn _ = _ |- context [m_post_fn _] => rewrite E
         end.

Lemma lookup_set_user (us : list (call * user_pc)) i j u u0 :
  us !! i = Some u0 ->
  (<[i:=u]> us) !! j = if decide (j = i) then Some u else us !! j.
Proof.
  intros Hi. apply lookup_lt_Some in Hi. case_decide; subst.
  - by apply list_lookup_insert_eq.
  - by apply list_lookup_insert_ne.
Qed.

(** In a goal about user [j] after user [i] moved: split on [j = i]. *)
Ltac user_lookup Hj :=
  match goal with
  | Hi : ?us !! ?i = Some _ |- _ =>
      match type of Hj with
      | (<[i:=_]> us) !! _ = Some _ =>
          rewrite (lookup_set_user _ _ _ _ _ Hi) in Hj; case_decide; simplify_eq/=
      end
  end.

(** An invariant that holds initially and is kept by every step holds
    after every schedule. *)
Lemma run_invariant (P : world -> Prop) :
  (forall l w w', step l w = Some w' -> P w -> P w') ->
  forall sched w w', run sched w = Some w' -> P w -> P w'.
Proof.
  intros Hstep sched. induction sched as [|l sched IH]; intros w w' Hrun Hw.
  - by simplify_eq/=.
  - simpl in Hrun. destruct (step l w) as [w1|] eqn:Hl; [|done].
    eapply IH; [done|]. by eapply Hstep.
Qed.

Lemma run_app s1 s2 w :
  run (s1 ++ s2) w = run s1 w ≫= run s2.
Proof.
  revert w. induction s1 as [|l s1 IH]; intros w; simpl; [done|].
  destruct (step l w); simpl; [apply IH|done].
Qed.

Lemma mutex_ok_step l w w' : step l w = Some w' -> mutex_ok w -> mutex_ok w'.
Proof.
  intros H [HL HA HC HU].
  step_inv H.
  all: try match goal with
           | Hi : users _ !! _ = Some _ |- _ =>
               pose proof (HU _ _ _ Hi) as Hown; simpl in Hown
           end.
  all: split; simpl; use_eqs; try (intuition congruence).
  all: intros j c' pc' Hj; try user_lookup Hj; try (apply HU in Hj);
    intuition congruence.
Qed.

Lemma mutex_ok_initial wait_fd post_fd refs calls :
  mutex_ok (initial wait_fd post_fd refs calls).
Proof.
  split; simpl; try (intuition congruence).
  intros i c pc Hi. rewrite list_lookup_fmap in Hi.
  destruct (calls !! i); simplify_eq/=. intuition congruence.
Qed.

Lemma user_refs_insert us i u u0 :
  us !! i = Some u0 ->
  user_refs (<[i:=u]> us) = (user_refs us - user_ref u0 + user_ref u)%Z.
Proof.
  revert i. induction us as [|x us IH]; intros [|i] Hi; simplify_eq/=.
  - lia.
  - rewrite (IH _ Hi). lia.
Qed.

Lemma user_refs_nonneg us : (0 <= user_refs us)%Z.
Proof.
  induction us as [|[[] []] us IH]; simpl; lia.
Qed.

Lemma count_ok_step l w w' : step l w = Some w' -> count_ok w -> count_ok w'.
Proof.
  intros H [Hc Ht].
  step_inv H.
  all: split; simpl; use_eqs; try (intuition congruence).
  all: repeat match goal with
         | Hi : users _ !! _ = Some _ |- context [user_refs (<[_:=_]> _)] =>
             rewrite (user_refs_insert _ _ _ _ Hi)
         end; simpl.
  all: try match goal with H : bool_decide _ = _ |- _ =>
         first [apply bool_decide_eq_true in H | apply bool_decide_eq_false in H] end.
  all: try rewrite Ht in * by done; simpl in *.
  all: try lia.
Qed.

Lemma count_ok_initial wait_fd post_fd refs calls :
  count_ok (initial wait_fd post_fd refs calls).
Proof.
  split; simpl; [|done].
  assert (user_refs (map (fun c => (c, U_start)) calls) = 0%Z) as ->; [|lia].
  induction calls as [|[] calls IH]; simpl; lia.
Qed.

Lemma in_sync_regs g tr : In (EvRegSync g) tr <-> In g (sync_regs tr).
Proof.
  unfold sync_regs. rewrite <-!list_elem_of_In, list_elem_of_omap. split.
  - intros H. by exists (EvRegSync g).
  - intros (e & He & Hg). destruct e; by simplify_eq/=.
Qed.

Lemma in_async_regs g tr : In (EvRegAsync g) tr <-> In g (async_regs tr).
Proof.
  unfold async_regs. rewrite <-!list_elem_of_In, list_elem_of_omap. split.
  - intros H. by exists (EvRegAsync g).
  - intros (e & He & Hg). destruct e; by simplify_eq/=.
Qed.

Lemma in_sync_ends g tr : In (EvEnd AConn g) tr <-> In g (sync_ends tr).
Proof.
  unfold sync_ends. rewrite <-!list_elem_of_In, list_elem_of_omap. split.
  - intros H. by exists (EvEnd AConn g).
  - intros (e & He & Hg). destruct e as [| [] | | | | | |]; by simplify_eq/=.
Qed.

Lemma in_defers g tr : In (EvDefer g) tr <-> In g (defers tr).
Proof.
  unfold defers. rewrite <-!list_elem_of_In, list_elem_of_omap. split.
  - intros H. by exists (EvDefer g).
  - intros (e & He & Hg). destruct e; by simplify_eq/=.
Qed.

Lemma sync_complete_intro tr :
  rev (sync_begins tr) = sync_regs tr -> sync_ends tr = sync_begins tr ->
  sync_complete tr.
Proof.
  intros Hb He g. rewrite in_sync_regs, in_sync_ends, He, <-Hb. apply in_rev.
Qed.

Lemma transfer_complete_intro tr :
  rev (defers tr) = async_regs tr -> transfer_complete tr.
Proof.
  intros Hd f. rewrite in_async_regs, in_defers, <-Hd. apply in_rev.
Qed.

Lemma sync_phase_before pc : in_sync_phase pc = true -> before_start pc = true.
Proof. by destruct pc. Qed.

Lemma conn_ok_sync_complete w :
  conn_ok w -> in_sync_phase (pc_conn w) = false -> sync_complete (trace w).
Proof.
  intros [Hs _ _ _ _ _ _] Hpc.
  destruct (pc_conn w); try done; destruct Hs as (_ & ? & ?);
    by apply sync_complete_intro.
Qed.

Lemma conn_ok_transfer_complete w :
  conn_ok w -> in_sync_phase (pc_conn w) = false ->
  in_transfer_phase (pc_conn w) = false -> transfer_complete (trace w).
Proof.
  intros [_ Ha _ _ _ _ _] H1 H2.
  destruct (pc_conn w); try done; destruct Ha as [_ Ha];
    by apply transfer_complete_intro.
Qed.

Lemma conn_ok_started w :
  conn_ok w -> pc_async w <> A_unstarted -> before_start (pc_conn w) = false.
Proof.
  intros [_ _ _ _ Hq _ _] Hpc. destruct (before_start (pc_conn w)); [|done].
  by destruct Hq.
Qed.

Ltac list_solve :=
  repeat match goal with
         | H : _ /\ _ |- _ => destruct H
         | H : ex _ |- _ => destruct H
         end;
  simplify_eq/=;
  repeat match goal with
         | H : m_sync_cleanup_fns _ = _ |- _ => rewrite H in *; clear H
         | H : m_async_cleanup_fns _ = _ |- _ => rewrite H in *; clear H
         | H : sync_begins _ = _ |- _ => rewrite H in *; clear H
         | H : defers _ = _ |- _ => rewrite H in *; clear H
         | H : sync_ends _ = _ |- _ => rewrite H in *; clear H
         end;
  simplify_eq/=;
  repeat match goal with
         | H : context [_ ++ []] |- _ => rewrite app_nil_r in H
         end;
  rewrite ?app_nil_r, <-?app_assoc; simpl;
  try done; try (repeat split; congruence); eauto.

Lemma conn_ok_step l w w' : step l w = Some w' -> conn_ok w -> conn_ok w'.
Proof.
  intros H Hok.
  pose proof (conn_ok_sync_complete _ Hok) as Hsc.
  pose proof (conn_ok_transfer_complete _ Hok) as Htc.
  pose proof (conn_ok_started _ Hok) as Hst.
  step_inv H.
  all: destruct Hok as [Hs Ha Hp He Hq Hsa Ho].
  all: repeat match goal with
         | E : pc_conn _ = _ |- _ =>
             rewrite E in Hs, Ha, Hp, He, Hq;
             simpl in Hs, Ha, Hp, He, Hq; revert E
         end; intros.
  all: split; simpl; use_eqs; simpl; try done.
  all: try (intros Hb; specialize (Hq Hb); destruct Hq; congruence).
  all: try (intros Hb; constructor; [done|auto]; fail).
  all: try (intros Hb; apply sync_phase_before in Hb; rewrite Hst in Hb; congruence).
  all: try (split_and?; try done; intros _; apply Hsc;
            destruct (in_sync_phase (pc_conn w)) eqn:Hb; [|done];
            apply sync_phase_before in Hb; rewrite Hst in Hb; congruence).
  all: try (list_solve; fail).
  all: try (intros _; destruct Hq as [? ->]; done).
  all: try (intros Hx; right; auto; fail).
  all: try (intros _; by left).
  all: try (intros _; first [apply Hsa | right; apply Hsa]; congruence).
  all: try (split_and!; try done;
            first [ intros _; auto; fail
                  | intros ? _; apply Hsa; congruence
                  | intros _; apply Hsc;
                    destruct (in_sync_phase (pc_conn w)) eqn:Hb; [|done];
                    apply sync_phase_before in Hb; rewrite Hst in Hb; congruence ]).
  - (* D_sync: the front function starts *)
    destruct Hs as [Hs1 Hs2].
    match goal with E : m_sync_cleanup_fns _ = _ |- _ => rewrite E in Hs1 |- * end.
    eexists. rewrite <-app_assoc. split_and!; [done|done|by rewrite Hs2].
  - (* D_sync_running: the front function returned, pop_front *)
    destruct Hs as (rest & Hm & Hr & Hb). rewrite Hm. simpl.
    split; [done|by rewrite Hb].
Qed.

Lemma conn_ok_initial wait_fd post_fd refs calls :
  conn_ok (initial wait_fd post_fd refs calls).
Proof. split; simpl; done. Qed.

(** The order of the trace, read at any event of the asynchronous
    phase: every registered synchronous cleanup returned earlier. *)
Lemma well_ordered_split tr newer e older :
  well_ordered tr -> tr = newer ++ e :: older -> after_sync e = true ->
  forall g, In (EvRegSync g) tr -> In (EvEnd AConn g) older.
Proof.
  revert tr. induction newer as [|x newer IH]; intros tr Ho -> He g Hg; simpl in *.
  - destruct Ho as (Hc & _). apply Hc; [done|].
    destruct Hg as [->|Hg]; [done|done].
  - destruct Ho as (_ & _ & Hreg & _ & Ho).
    destruct Hg as [->|Hg].
    + specialize (Hreg eq_refl). rewrite Forall_app, Forall_cons in Hreg.
      destruct Hreg as (_ & Hreg & _). congruence.
    + by eapply IH.
Qed.

Lemma well_ordered_start tr newer older :
  well_ordered tr -> tr = newer ++ EvStartAsync :: older ->
  forall f, In (EvRegAsync f) tr -> In (EvDefer f) older.
Proof.
  revert tr. induction newer as [|x newer IH]; intros tr Ho -> f Hf; simpl in *.
  - destruct Ho as (_ & Hc & _). apply Hc; [done|].
    destruct Hf as [?|Hf]; [done|done].
  - destruct Ho as (_ & _ & Hreg & _ & Ho).
    destruct Hf as [->|Hf].
    + specialize (Hreg eq_refl). rewrite Forall_app, Forall_cons in Hreg.
      destruct Hreg as (_ & Hreg & _). done.
    + by eapply IH.
Qed.








Lemma well_ordered_run tr newer f older :
  well_ordered tr -> tr = newer ++ EvBegin AAsync f :: older ->
  In EvStartAsync older.
Proof.
  revert tr. induction newer as [|x newer IH]; intros tr Ho ->; simpl in *.
  - destruct Ho as (_ & _ & _ & Hs & _). by eapply Hs.
  - destruct Ho as (_ & _ & _ & _ & Ho). by eapply IH.
Qed.

(** * Part IV: the claims about EventLoop and Connection *)

(** Every world reached from an initial world satisfies the invariants. *)
Lemma reachable_mutex_ok wait_fd post_fd refs calls sched w :
  run sched (initial wait_fd post_fd refs calls) = Some w -> mutex_ok w.
Proof.
  intros H. eapply (run_invariant mutex_ok); [apply mutex_ok_step|apply H|].
  apply mutex_ok_initial.
Qed.

Lemma reachable_count_ok wait_fd post_fd refs calls sched w :
  run sched (initial wait_fd post_fd refs calls) = Some w -> count_ok w.
Proof.
  intros H. eapply (run_invariant count_ok); [apply count_ok_step|apply H|].
  apply count_ok_initial.
Qed.

Lemma reachable_conn_ok wait_fd post_fd refs calls sched w :
  run sched (initial wait_fd post_fd refs calls) = Some w -> conn_ok w.
Proof.
  intros H. eapply (run_invariant conn_ok); [apply conn_ok_step|apply H|].
  apply conn_ok_initial.
Qed.


(** C1. Teardown order of a Connection.  In every schedule, at the
    moment (a) a function is moved to the EventLoop's deferred queue,
    (b) the destructor calls startAsyncThread, or (c) the dispatcher
    begins or ends a deferred function, every registered synchronous
    cleanup function has already returned inside the destructor.  When
    startAsyncThread is called every registered asynchronous cleanup
    function is already in the deferred queue, and the dispatcher begins
    a function only after startAsyncThread was called. *)
Theorem sync_cleanup_completes_before_async wait_fd post_fd refs calls sched w :
  run sched (initial wait_fd post_fd refs calls) = Some w ->
  (forall newer e older,
      trace w = newer ++ e :: older -> after_sync e = true ->
      forall g, In (EvRegSync g) (trace w) -> In (EvEnd AConn g) older)
  /\ (forall newer older,
      trace w = newer ++ EvStartAsync :: older ->
      forall f, In (EvRegAsync f) (trace w) -> In (EvDefer f) older)
  /\ (forall newer f older,
      trace w = newer ++ EvBegin AAsync f :: older -> In EvStartAsync older).
Proof.
  intros Hrun. pose proof (reachable_conn_ok _ _ _ _ _ _ Hrun) as Hok.
  pose proof (conn_order _ Hok) as Ho. split_and!.
  - intros newer e older Hsplit He g Hg. by eapply well_ordered_split.
  - intros newer older Hsplit f Hf. by eapply well_ordered_start.
  - intros newer f older Hsplit. by eapply well_ordered_run.
Qed.

Lemma sync_cleanup_completes_before_async_witness :
  run teardown_schedule (initial 3 4 0 []) = Some teardown_world
  /\ trace teardown_world = [] ++ EvBegin AAsync 8 :: tail (trace teardown_world)
  /\ In (EvEnd AConn 1) (tail (trace teardown_world))
  /\ In (EvEnd AConn 2) (tail (trace teardown_world)).
Proof.
  assert (run teardown_schedule (initial 3 4 0 []) = Some teardown_world) as Hrun
    by (vm_compute; reflexivity).
  split; [exact Hrun|]. split; [reflexivity|].
  pose proof (proj1 (sync_cleanup_completes_before_async 3 4 0 [] _ _ Hrun)) as H.
  split.
  - apply (H [] (EvBegin AAsync 8) _ eq_refl eq_refl 1). vm_compute. tauto.
  - apply (H [] (EvBegin AAsync 8) _ eq_refl eq_refl 2). vm_compute. tauto.
Defined.

(** C7. Both cleanup lists are LIFO.  While the Connection is alive
    each list holds what was registered, most recent first.  Once the
    destructor has left its first loop, the synchronous functions were
    started in exactly that order; once it has left its second loop the
    asynchronous functions were appended to the deferred queue in exactly
    that order, and before the dispatcher is started the queue is the
    registration order reversed. *)
Theorem cleanup_lists_are_lifo wait_fd post_fd refs calls sched w :
  run sched (initial wait_fd post_fd refs calls) = Some w ->
  (pc_conn w = D_alive ->
     m_sync_cleanup_fns (conn w) = rev (registered_sync w)
     /\ m_async_cleanup_fns (conn w) = rev (registered_async w))
  /\ (in_sync_phase (pc_conn w) = false ->
     sync_run_order w = rev (registered_sync w))
  /\ (in_sync_phase (pc_conn w) = false -> in_transfer_phase (pc_conn w) = false ->
     defer_order w = rev (registered_async w))
  /\ (pc_conn w = D_final_lock \/ pc_conn w = D_start_async ->
     m_async_fns (ev_loop w) = rev (registered_async w)).
Proof.
  intros Hrun. destruct (reachable_conn_ok _ _ _ _ _ _ Hrun) as [Hs Ha _ _ Hq _ _].
  unfold sync_run_order, defer_order, registered_sync, registered_async.
  rewrite !rev_involutive. split_and!.
  - intros E. rewrite E in Hs, Ha. by destruct Hs as (-> & _), Ha as (-> & _).
  - intros E. destruct (pc_conn w); try done; by destruct Hs as (_ & ? & _).
  - intros E1 E2. destruct (pc_conn w); try done; by destruct Ha as (_ & ?).
  - intros [E|E]; rewrite E in Ha, Hq; destruct (Hq eq_refl) as [_ ->]; by destruct Ha.
Qed.

Lemma cleanup_lists_are_lifo_witness :
  run teardown_schedule (initial 3 4 0 []) = Some teardown_world
  /\ registered_sync teardown_world = [1; 2]
  /\ sync_run_order teardown_world = [2; 1]
  /\ registered_async teardown_world = [7; 8]
  /\ defer_order teardown_world = [8; 7]
  /\ sync_run_order teardown_world = rev (registered_sync teardown_world)
  /\ defer_order teardown_world = rev (registered_async teardown_world).
Proof.
  assert (run teardown_schedule (initial 3 4 0 []) = Some teardown_world) as Hrun
    by (vm_compute; reflexivity).
  split; [exact Hrun|]. do 4 (split; [reflexivity|]).
  destruct (cleanup_lists_are_lifo 3 4 0 [] _ _ Hrun) as (_ & Hs & Ha & _).
  split; [apply Hs; reflexivity|apply Ha; reflexivity].
Defined.

(** ** Posted functions: safety *)



(** ** Posted functions: every post completes when nothing interferes *)

Lemma run_cons_some l s w w1 : step l w = Some w1 -> run (l :: s) w = run s w1.
Proof. intros H. simpl. by rewrite H. Qed.







(** ** The exit test of the loop *)

(** C3 (evaluation of the code on the failing schedule).  The loop
    thread leaves its dispatch cycle -- it is at the [break], about to
    close the descriptors -- while the client counter is 1 and the
    dispatcher is inside deferred function 7.  Two more steps of the loop
    thread close both descriptors. *)
Theorem loop_exits_with_nonzero_client_count :
  exists w w',
    run race_schedule (initial 3 4 0 []) = Some w
    /\ pc_loop w = L_exit
    /\ m_num_clients (ev_loop w) = 1%Z
    /\ pc_async w = A_running 7
    /\ run [LLoop 1; LLoop 1] w = Some w'
    /\ pc_loop w' = L_done
    /\ m_num_clients (ev_loop w') = 1%Z
    /\ m_wait_fd (ev_loop w') = (-1)%Z /\ m_post_fd (ev_loop w') = (-1)%Z.
Proof.
  eexists _, _. split; [vm_compute; reflexivity|].
  do 3 (split; [reflexivity|]). split; [vm_compute; reflexivity|].
  split_and!; reflexivity.
Qed.

(** C4 (evaluation of the code on the failing schedule).  The loop has
    returned and closed the wake channel while deferred function 7 is
    still running; when the function returns, the dispatcher's
    [removeClient] brings the counter to zero and its write to the closed
    descriptor throws. *)
Theorem loop_exits_during_deferred_action :
  exists w w',
    run (race_schedule ++ [LLoop 1; LLoop 1]) (initial 3 4 0 []) = Some w
    /\ pc_loop w = L_done
    /\ pc_async w = A_running 7
    /\ count_occ event_eq_dec (trace w) (EvEnd AAsync 7) = 0
    /\ run (replicate 4 LAsync) w = Some w'
    /\ pc_async w' = A_threw.
Proof.
  eexists _, _. split; [vm_compute; reflexivity|].
  do 3 (split; [reflexivity|]). split; [vm_compute; reflexivity|].
  reflexivity.
Qed.

(** ** The dispatcher thread *)



(** The only step that takes the dispatcher to the end of its lambda is
    the one that finds the queue empty and the counter zero. *)
Lemma dispatcher_exit_step w w' :
  async_step w = Some w' -> pc_async w' = A_done ->
  pc_async w = A_top /\ m_async_fns (ev_loop w) = []
  /\ m_num_clients (ev_loop w) = 0%Z.
Proof.
  unfold async_step, acquire, addClient, removeClient, write_post_fd.
  intros H Hd. repeat (case_match; simplify_eq/=; try done).
Qed.

(** ** A failed read of the wake channel *)






(** ** Destruction of the EventLoop *)

(** C6 (corrected statement).  [~EventLoop] first joins the dispatcher thread
    and locks [m_mutex]: while the dispatcher has not finished, or the
    mutex is held, it blocks, whatever the state of the members, and
    fails no assertion.  If it gets past the join and the lock, it
    returns exactly when the slot and the deferred queue are empty, the
    client counter is zero and both descriptors are -1, and otherwise the
    first violated [KJ_ASSERT], in the order of lines 139-143, fails. *)
Theorem event_loop_destruction_blocks_or_asserts w :
  (EventLoop_dtor w = DtorReturns -> idle (ev_loop w))
  /\ (EventLoop_dtor w = DtorBlocks <->
      (m_async_thread (ev_loop w) = true /\ pc_async w <> A_done)
      \/ m_mutex (ev_loop w) <> None)
  /\ (EventLoop_dtor w <> DtorBlocks -> idle (ev_loop w) ->
      EventLoop_dtor w = DtorReturns)
  /\ (EventLoop_dtor w <> DtorBlocks -> ~ idle (ev_loop w) ->
      exists line, EventLoop_dtor w = DtorAssertFails line
                   /\ line ∈ [139; 140; 141; 142; 143])
  /\ (EventLoop_dtor w <> DtorBlocks -> m_num_clients (ev_loop w) <> 0%Z ->
      exists line, EventLoop_dtor w = DtorAssertFails line)
  /\ (EventLoop_dtor w <> DtorBlocks -> m_async_fns (ev_loop w) <> [] ->
      exists line, EventLoop_dtor w = DtorAssertFails line)
  /\ (forall line, EventLoop_dtor w = DtorAssertFails line ->
      ~ idle (ev_loop w)
      /\ match line with
         | 139 => m_post_fn (ev_loop w) <> None
         | 140 => m_post_fn (ev_loop w) = None /\ m_async_fns (ev_loop w) <> []
         | 141 => m_async_fns (ev_loop w) = [] /\ m_wait_fd (ev_loop w) <> (-1)%Z
         | 142 => m_wait_fd (ev_loop w) = (-1)%Z /\ m_post_fd (ev_loop w) <> (-1)%Z
         | 143 => m_post_fd (ev_loop w) = (-1)%Z /\ m_num_clients (ev_loop w) <> 0%Z
         | _ => False
         end).
Proof.
  unfold EventLoop_dtor, idle.
  destruct (m_async_thread (ev_loop w)); simpl;
  repeat (case_bool_decide || case_match); simpl;
    split_and!; try split; intros; simplify_eq; try done; try tauto;
    try (by eexists); try (eexists; split; [done|set_solver]);
    try (exfalso; tauto); try (left; done); try (right; done);
    try (exfalso; intuition congruence).
Qed.

Lemma event_loop_destruction_blocks_or_asserts_witness :
  run shutdown_schedule (initial 3 4 0 []) = Some shutdown_world
  /\ EventLoop_dtor shutdown_world = DtorReturns
  /\ idle (ev_loop shutdown_world)
  /\ EventLoop_dtor (initial 3 4 0 []) = DtorAssertFails 141.
Proof.
  split; [vm_compute; reflexivity|]. split; [reflexivity|].
  split; [|reflexivity].
  apply (proj1 (event_loop_destruction_blocks_or_asserts shutdown_world)).
  reflexivity.
Defined.

(** A state in which the client counter is not zero and [~EventLoop]
    fails no assertion: the Connection has been destroyed, one client is
    left and the dispatcher waits for it; the destructor blocks in
    [join]. *)
Lemma event_loop_destruction_blocks_with_client :
  run parked_schedule (initial 3 4 1 []) = Some parked_world
  /\ pc_conn parked_world = D_done
  /\ pc_async parked_world = A_wait
  /\ m_num_clients (ev_loop parked_world) = 1%Z
  /\ ~ idle (ev_loop parked_world)
  /\ EventLoop_dtor parked_world = DtorBlocks
  /\ (forall line, EventLoop_dtor parked_world <> DtorAssertFails line).
Proof.
  split; [vm_compute; reflexivity|].
  do 3 (split; [reflexivity|]).
  split; [intros (_ & _ & _ & _ & Hn); discriminate Hn|].
  split; [reflexivity|]. intros line. discriminate.
Qed.

(** ** The wake-channel descriptors *)

Lemma fds_ok_step wait_fd post_fd l w w' :
  step l w = Some w' -> fds_ok wait_fd post_fd w -> fds_ok wait_fd post_fd w'.
Proof.
  intros H Hok.
  step_inv H.
  all: unfold fds_ok in *.
  all: repeat match goal with
         | E : pc_loop _ = _ |- _ => progress (rewrite E in * )
         end.
  all: simpl in *; try done.
  all: try (destruct Hok as (-> & -> & ->); done).
  all: try (destruct Hok as (? & -> & ->); done).
  all: try (destruct (pc_loop w); simpl in *; done).
  all: try (destruct (pc_loop _); simpl in *; done).
  all: destruct Hok as (Hw & Hp & Hf).
  all: rewrite filter_cons_True by done.
  all: rewrite Hf, ?Hw, ?Hp; done.
Qed.

Lemma fds_ok_initial wait_fd post_fd refs calls :
  fds_ok wait_fd post_fd (initial wait_fd post_fd refs calls).
Proof. done. Qed.

(** On every schedule: before the loop leaves its cycle no descriptor
    is closed and both members hold the descriptors of the constructor;
    when [loop] has returned each of the two descriptors was closed
    once, first the read end, and both members are -1. *)
Lemma descriptors_closed_once wait_fd post_fd refs calls sched w :
  run sched (initial wait_fd post_fd refs calls) = Some w ->
  fds_ok wait_fd post_fd w
  /\ (pc_loop w = L_done ->
        m_wait_fd (ev_loop w) = (-1)%Z /\ m_post_fd (ev_loop w) = (-1)%Z
        /\ rev (filter (fun e => is_close e = true) (trace w))
           = [EvClose wait_fd; EvClose post_fd]).
Proof.
  intros Hrun.
  assert (fds_ok wait_fd post_fd w) as Hok.
  { eapply run_invariant; [apply fds_ok_step|apply Hrun|apply fds_ok_initial]. }
  split; [exact Hok|]. intros E. unfold fds_ok in Hok. rewrite E in Hok.
  destruct Hok as (? & ? & ->). done.
Qed.

Lemma descriptors_closed_once_witness :
  run shutdown_schedule (initial 3 4 0 []) = Some shutdown_world
  /\ pc_loop shutdown_world = L_done
  /\ m_wait_fd (ev_loop shutdown_world) = (-1)%Z
  /\ m_post_fd (ev_loop shutdown_world) = (-1)%Z
  /\ rev (filter (fun e => is_close e = true) (trace shutdown_world))
     = [EvClose 3; EvClose 4].
Proof.
  assert (run shutdown_schedule (initial 3 4 0 []) = Some shutdown_world) as Hrun
    by (vm_compute; reflexivity).
  split; [exact Hrun|]. split; [reflexivity|].
  exact (proj2 (descriptors_closed_once 3 4 0 [] _ _ Hrun) eq_refl).
Defined.

(** * Part V: the claims about the Thread and ThreadMap proxies *)

Ltac tstep_inv H :=
  unfold tstep, crashed, server_step, worker_step, tacquire in H;
  repeat (case_match; simplify_eq/=; try done).

Lemma precedes_cons a b e tr :
  precedes a b tr -> (e = b -> In a tr) -> precedes a b (e :: tr).
Proof.
  intros Hp He [|x newer] older Heq; simplify_eq/=.
  - by apply He.
  - by eapply Hp.
Qed.

Lemma precedes_nil a b : precedes a b [].
Proof. intros [|??] ? ?; done. Qed.

Section ThreadProofs.

Variable ThreadName : string -> string.
Variables (exe_name name : string).

Lemma trun_invariant (P : tworld -> Prop) :
  (forall a w w', tstep ThreadName a w = Some w' -> P w -> P w') ->
  forall sched w w', trun ThreadName sched w = Some w' -> P w -> P w'.
Proof.
  intros Hstep sched. induction sched as [|a sched IH]; intros w w' Hrun Hw.
  - by simplify_eq/=.
  - simpl in Hrun. destruct (tstep ThreadName a w) as [w1|] eqn:Hl; [|done].
    eapply IH; [done|]. by eapply Hstep.
Qed.

Lemma thread_ok_step a w w' :
  tstep ThreadName a w = Some w' ->
  thread_ok ThreadName exe_name name w -> thread_ok ThreadName exe_name name w'.
Proof.
  intros H Hok.
  tstep_inv H.
  all: destruct Hok as [Hpar Hord Hreq Hmaps Hname Hwaiter Htaken Hidle Hprom Hsp Hex
                        Hjn Hms Hmw Hfault Hexit Hjoined Hfreed Hna Hp1 Hp2].
  all: repeat match goal with
         | E : pc_server _ = _ |- _ => progress (rewrite E in * )
         | E : pc_worker _ = _ |- _ => progress (rewrite E in * )
         | E : waiter_mutex _ = _ |- _ => progress (rewrite E in * )
         | E : m_fn _ = _ |- _ => progress (rewrite E in * )
         end.
  all: unfold crashed in *; simpl in *.
  all: split; simpl; try done; try tauto; try (intuition congruence).
  all: try (apply precedes_cons; [done|intros ?; simplify_eq/=; tauto]).
  all: try (intros ?; rewrite Hord by done; reflexivity).
  all: try (destruct (pc_worker w) eqn:Hpw; simpl in *; try done;
            intuition congruence).
  all: try (destruct (pc_server w) eqn:Hps; simpl in *; try done;
            intuition congruence).
  (* the worker leaves [wait] because the pointer is null: it was taken *)
  apply precedes_cons; [done|]. intros _. apply Htaken.
  match goal with E : waiter _ = false |- _ => rewrite E in Hwaiter end.
  by destruct (waiter_taken (pc_server w)).
Qed.

Lemma thread_ok_initial req cb :
  thread_ok ThreadName exe_name name (tinitial exe_name name req cb).
Proof.
  split; simpl; try done; try tauto; try (intuition congruence);
    apply precedes_nil.
Qed.

Lemma reachable_thread_ok req cb sched w :
  trun ThreadName sched (tinitial exe_name name req cb) = Some w ->
  thread_ok ThreadName exe_name name w.
Proof.
  intros H. eapply trun_invariant; [apply thread_ok_step|apply H|].
  apply thread_ok_initial.
Qed.


End ThreadProofs.

Lemma append_not_empty (s1 s2 : string) : s2 <> "" -> s1 +:+ s2 <> "".
Proof. destruct s1; simpl; [done|discriminate]. Qed.

Lemma long_name_not_empty (base name : string) :
  base +:+ " (from " +:+ name +:+ ")" <> "".
Proof. apply append_not_empty. discriminate. Qed.

Lemma dtor_events_complete ThreadName exe_name name w :
  thread_ok ThreadName exe_name name w ->
  rev (filter (fun e => dtor_event e = true) (ttrace w))
  = take (dtor_progress (pc_server w)) teardown_order.
Proof. intros Hok. apply (t_order _ _ _ _ Hok). apply (t_no_abort _ _ _ _ Hok). Qed.

(** After the early return nothing the destructor would do happens. *)
Lemma returned_early_frame ThreadName w0 sched w :
  trun ThreadName sched w0 = Some w ->
  pc_server w0 = T_returned_early ->
  pc_server w = T_returned_early
  /\ filter (fun e => dtor_event e = true) (ttrace w)
     = filter (fun e => dtor_event e = true) (ttrace w0)
  /\ request_threads (g_thread_context w) = request_threads (g_thread_context w0)
  /\ callback_threads (g_thread_context w) = callback_threads (g_thread_context w0)
  /\ m_thread w = m_thread w0.
Proof.
  intros Hrun Hpc.
  apply (trun_invariant ThreadName (fun w =>
    pc_server w = T_returned_early
    /\ filter (fun e => dtor_event e = true) (ttrace w)
       = filter (fun e => dtor_event e = true) (ttrace w0)
    /\ request_threads (g_thread_context w) = request_threads (g_thread_context w0)
    /\ callback_threads (g_thread_context w) = callback_threads (g_thread_context w0)
    /\ m_thread w = m_thread w0)) with (sched := sched) (w := w0); [|done|done].
  clear. intros a w w' H (Hpc & Hf & Hr & Hc & Hm).
  tstep_inv H; rewrite ?Hpc in *; try done.
Qed.

(** C5 (evaluation of the code on the failing schedules).  [makeThread]
    followed immediately by the destruction of the proxy.  On
    [thread_race] the destructor has taken the Waiter, cleared the maps,
    released the lock and is waiting in [join] while the worker has not
    yet executed line 300; the worker's next step dereferences the null
    [g_thread_context.waiter]; nothing runs afterwards and the thread is
    never joined.  On [thread_race_late] the worker had evaluated the
    pointer of line 300 before the destructor took the Waiter; it gets
    the lock after the destructor released it and dereferences the null
    pointer at line 303. *)
Theorem worker_faults_when_proxy_is_destroyed_early ThreadName exe_name name req cb :
  (exists w w',
     trun ThreadName thread_race (tinitial exe_name name req cb) = Some w
     /\ pc_server w = T_join /\ pc_worker w = W_lock
     /\ waiter (g_thread_context w) = false
     /\ tstep ThreadName TWorker w = Some w'
     /\ pc_worker w' = W_fault 300
     /\ pc_server w' = T_join /\ m_thread w' = true
     /\ forall a, tstep ThreadName a w' = None)
  /\ (exists w,
       trun ThreadName thread_race_late (tinitial exe_name name req cb) = Some w
       /\ pc_worker w = W_fault 303
       /\ pc_server w = T_join /\ m_thread w = true
       /\ forall a, tstep ThreadName a w = None).
Proof.
  split.
  - eexists _, _. split; [vm_compute; reflexivity|].
    do 3 (split; [reflexivity|]). split; [vm_compute; reflexivity|].
    do 3 (split; [reflexivity|]). by intros [].
  - eexists. split; [vm_compute; reflexivity|].
    do 3 (split; [reflexivity|]). by intros [].
Qed.

(** What holds of [makeThread] followed by the destruction of the proxy
    in every interleaving with the worker thread.  The destructor's
    actions occur in the source order: lock, clear the shared Waiter
    pointer, idle assertion, clear [request_threads], clear
    [callback_threads], notify, unlock, join; none of the assertions of
    the constructor and of the destructor fails.  The thread handle is
    joinable when the destructor starts.  While the destructor is at the
    join both maps are empty and the shared pointer is null.  The worker
    leaves [wait] only after the pointer was cleared, and the join
    returns only after the worker left.  When the destructor has
    returned the worker has finished and the handle is no longer
    joinable.  The worker dereferences a null pointer only after the
    destructor cleared it.  On [thread_lifecycle], where the worker is
    inside [wait] before the destructor starts, the destructor
    returns. *)
Theorem thread_proxy_teardown_follows_source_order ThreadName exe_name name req cb :
  (forall sched w,
     trun ThreadName sched (tinitial exe_name name req cb) = Some w ->
     rev (filter (fun e => dtor_event e = true) (ttrace w))
       = take (dtor_progress (pc_server w)) teardown_order
     /\ pc_server w <> T_aborted
     /\ (pc_server w = S_alive -> m_thread w = true)
     /\ (pc_server w = T_join ->
           request_threads (g_thread_context w) = ∅
           /\ callback_threads (g_thread_context w) = ∅
           /\ waiter (g_thread_context w) = false)
     /\ precedes TClearWaiter TWorkerExit (ttrace w)
     /\ precedes TWorkerExit TJoin (ttrace w)
     /\ (pc_server w = T_done ->
           pc_worker w = W_done /\ m_thread w = false
           /\ request_threads (g_thread_context w) = ∅
           /\ callback_threads (g_thread_context w) = ∅)
     /\ (crashed w = true -> In TClearWaiter (ttrace w)))
  /\ (exists w,
        trun ThreadName thread_lifecycle (tinitial exe_name name req cb) = Some w
        /\ pc_server w = T_done
        /\ rev (ttrace w) = thread_lifecycle_events).
Proof.
  split.
  - intros sched w Hrun.
    pose proof (reachable_thread_ok ThreadName exe_name name req cb sched w Hrun) as Hok.
    pose proof (dtor_events_complete _ _ _ _ Hok) as Hord.
    destruct Hok as [Hpar _ Hreq Hmaps Hname Hwaiter Htaken Hidle Hprom Hsp Hex
                     Hjn Hms Hmw Hfault Hexit Hjoined Hfreed [Hna1 Hna2] Hp1 Hp2].
    split; [exact Hord|]. split; [exact Hna1|].
    split; [intros E; rewrite Hjn, E; reflexivity|].
    split.
    { intros E. rewrite E in Hreq, Hmaps, Hwaiter.
      split; [by apply Hreq|]. split; [by apply Hmaps|].
      rewrite Hwaiter. simpl. apply andb_false_r. }
    split; [exact Hp1|]. split; [exact Hp2|].
    split; [|intros Hc; by apply Htaken, Hfault].
    intros E. rewrite E in Hreq, Hmaps, Hjn.
    split; [apply Hjoined; by right|]. split; [exact Hjn|].
    split; [by apply Hreq|by apply Hmaps].
  - eexists. split; [vm_compute; reflexivity|]. split; reflexivity.
Qed.

Lemma thread_proxy_teardown_follows_source_order_witness :
  exists w,
    trun ThreadName_example thread_lifecycle
         (tinitial "bitcoin-node" "x" {[1 := 5]} {[2 := 6]}) = Some w
    /\ pc_server w = T_done
    /\ rev (filter (fun e => dtor_event e = true) (ttrace w)) = teardown_order
    /\ pc_worker w = W_done /\ m_thread w = false
    /\ request_threads (g_thread_context w) = ∅
    /\ callback_threads (g_thread_context w) = ∅.
Proof.
  destruct (thread_proxy_teardown_follows_source_order ThreadName_example
              "bitcoin-node" "x" {[1 := 5]} {[2 := 6]}) as [Hall (w & Hrun & Hpc & _)].
  exists w. split; [exact Hrun|]. split; [exact Hpc|].
  destruct (Hall _ _ Hrun) as (Hord & _ & _ & _ & _ & _ & Hdone & _).
  rewrite Hpc in Hord. split; [exact Hord|]. exact (Hdone Hpc).
Defined.

(** C9.  In every state reached from a [makeThread] call for a caller
    named [name], once the worker has executed its first statement (and
    so whenever the proxy exists) the thread-local name of the worker is
    [ThreadName exe_name] followed by [" (from name)"]; on that thread
    [LongThreadName] returns this stored name whatever its argument, and
    the [LogIpc] prefix carries it.  In general [LongThreadName] returns
    the stored name when it is not empty and [ThreadName] of its argument
    when it is empty. *)
Theorem worker_thread_name_has_origin_suffix ThreadName exe_name name req cb sched w :
  trun ThreadName sched (tinitial exe_name name req cb) = Some w ->
  (proxy_exists (pc_server w) = true -> worker_started (pc_worker w) = true)
  /\ (worker_started (pc_worker w) = true ->
        thread_name (g_thread_context w)
          = ThreadName exe_name +:+ " (from " +:+ name +:+ ")"
        /\ (forall exe, LongThreadName ThreadName (g_thread_context w) exe
                        = ThreadName exe_name +:+ " (from " +:+ name +:+ ")")
        /\ (forall exe, LogIpc_prefix ThreadName (g_thread_context w) exe
                        = "{" +:+ (ThreadName exe_name +:+ " (from " +:+ name +:+ ")")
                          +:+ "} "))
  /\ (forall c exe, thread_name c <> "" ->
        LongThreadName ThreadName c exe = thread_name c)
  /\ (forall c exe, thread_name c = "" ->
        LongThreadName ThreadName c exe = ThreadName exe).
Proof.
  intros Hrun.
  pose proof (reachable_thread_ok ThreadName exe_name name req cb sched w Hrun) as Hok.
  assert (forall c exe, thread_name c <> "" ->
            LongThreadName ThreadName c exe = thread_name c) as Hlong.
  { intros c exe Hne. unfold LongThreadName. by rewrite decide_False. }
  split.
  { intros Hex. pose proof (t_exists _ _ _ _ Hok Hex) as Hp.
    by destruct (pc_worker w). }
  split.
  { intros Hst. pose proof (t_name _ _ _ _ Hok Hst) as Hn.
    assert (forall exe, LongThreadName ThreadName (g_thread_context w) exe
                        = ThreadName exe_name +:+ " (from " +:+ name +:+ ")") as Hl.
    { intros exe. rewrite Hlong; [exact Hn|].
      rewrite Hn. apply long_name_not_empty. }
    split; [exact Hn|]. split; [exact Hl|].
    intros exe. unfold LogIpc_prefix. by rewrite Hl. }
  split; [exact Hlong|].
  intros c exe He. unfold LongThreadName. by rewrite decide_True.
Qed.

Lemma worker_thread_name_has_origin_suffix_witness :
  exists w,
    trun ThreadName_example [TServer; TWorker]
         (tinitial "bitcoin-node" "wallet" ∅ ∅) = Some w
    /\ worker_started (pc_worker w) = true
    /\ LongThreadName ThreadName_example (g_thread_context w) "bitcoin-gui"
       = "bitcoin-node-123/main-456 (from wallet)"
    /\ LogIpc_prefix ThreadName_example (g_thread_context w) "bitcoin-gui"
       = "{bitcoin-node-123/main-456 (from wallet)} ".
Proof.
  eexists. split; [vm_compute; reflexivity|]. split; [reflexivity|].
  destruct (worker_thread_name_has_origin_suffix ThreadName_example
              "bitcoin-node" "wallet" ∅ ∅ [TServer; TWorker] _ eq_refl)
    as (_ & Hn & _).
  destruct (Hn eq_refl) as (_ & Hl & Hp).
  split; [exact (Hl "bitcoin-gui")|exact (Hp "bitcoin-gui")].
Defined.

(** C10.  When the destructor of a Thread proxy starts with a handle
    that is not joinable, its only step is the return at line 257: the
    state after it differs from the state before it in the program
    point alone, so the ThreadContext, the Waiter, its lock, the maps,
    the handle and the trace are untouched; the destructor takes no
    further step, and in no continuation does any action of the teardown
    sequence occur or either map change.  With a joinable handle the
    destructor goes on to the teardown sequence instead. *)
Theorem thread_proxy_destructor_returns_when_not_joinable ThreadName w :
  pc_server w = S_alive ->
  (m_thread w = false ->
     server_step w = Some (set_pc_server T_returned_early w)
     /\ g_thread_context (set_pc_server T_returned_early w) = g_thread_context w
     /\ waiter_mutex (set_pc_server T_returned_early w) = waiter_mutex w
     /\ m_fn (set_pc_server T_returned_early w) = m_fn w
     /\ waiter_freed (set_pc_server T_returned_early w) = waiter_freed w
     /\ m_thread (set_pc_server T_returned_early w) = m_thread w
     /\ pc_worker (set_pc_server T_returned_early w) = pc_worker w
     /\ ttrace (set_pc_server T_returned_early w) = ttrace w
     /\ server_step (set_pc_server T_returned_early w) = None
     /\ forall sched w',
          trun ThreadName sched (set_pc_server T_returned_early w) = Some w' ->
          pc_server w' = T_returned_early
          /\ filter (fun e => dtor_event e = true) (ttrace w')
             = filter (fun e => dtor_event e = true) (ttrace w)
          /\ request_threads (g_thread_context w')
             = request_threads (g_thread_context w)
          /\ callback_threads (g_thread_context w')
             = callback_threads (g_thread_context w)
          /\ m_thread w' = false)
  /\ (m_thread w = true -> server_step w = Some (set_pc_server T_assert_waiter w)).
Proof.
  intros Hpc. split.
  - intros Hj.
    split; [unfold server_step; by rewrite Hpc, Hj|].
    do 8 (split; [reflexivity|]).
    intros sched w' Hrun.
    destruct (returned_early_frame _ _ _ _ Hrun eq_refl) as (H1 & H2 & H3 & H4 & H5).
    simpl in *. rewrite <- Hj. done.
  - intros Hj. unfold server_step. by rewrite Hpc, Hj.
Qed.

Lemma thread_proxy_destructor_returns_when_not_joinable_witness :
  pc_server detached_proxy = S_alive
  /\ m_thread detached_proxy = false
  /\ server_step detached_proxy = Some (set_pc_server T_returned_early detached_proxy)
  /\ forall w',
       trun ThreadName_example [TWorker; TWorker]
            (set_pc_server T_returned_early detached_proxy) = Some w' ->
       request_threads (g_thread_context w') = {[1 := 5]}
       /\ callback_threads (g_thread_context w') = {[2 := 6]}.
Proof.
  split; [reflexivity|]. split; [reflexivity|].
  destruct (proj1 (thread_proxy_destructor_returns_when_not_joinable
                     ThreadName_example detached_proxy eq_refl) eq_refl)
    as (Hs & _ & _ & _ & _ & _ & _ & _ & _ & Hall).
  split; [exact Hs|].
  intros w' Hrun. destruct (Hall _ _ Hrun) as (_ & _ & Hr & Hc & _).
  split; [exact Hr|exact Hc].
Defined.

(** * Part VI: further properties of the source *)

(** ** Cleanup iterators *)

Lemma deref_node it l : it ∈ l.*1 <-> is_Some (Iter.deref it l).
Proof.
  induction l as [|[n g] l IH]; simpl.
  - split; [by intros ?%elem_of_nil|by intros [? ?]].
  - destruct (decide (n = it)) as [->|Hne].
    + split; [by eexists|intros _; left].
    + rewrite elem_of_cons, IH. split; [intros [?|?]; [congruence|done]|by right].
Qed.

Lemma filter_other_nodes it (l : Iter.CleanupList) :
  it ∉ l.*1 -> filter (fun p => p.1 <> it) l = l.
Proof.
  induction l as [|[n g] l IH]; [done|].
  rewrite fmap_cons, not_elem_of_cons. intros [Hne Hl]. simpl in Hne.
  rewrite filter_cons_True by (simpl; congruence). by rewrite IH.
Qed.

Lemma erase_filter it f l :
  NoDup l.*1 -> Iter.deref it l = Some f ->
  Iter.erase it l = Some (filter (fun p => p.1 <> it) l).
Proof.
  induction l as [|[n g] l IH]; [done|].
  rewrite fmap_cons. intros [Hn Hnd]%NoDup_cons Hd. simpl in Hn, Hd |- *.
  destruct (decide (n = it)) as [->|Hne].
  - rewrite filter_cons_False by (simpl; tauto).
    by rewrite filter_other_nodes.
  - rewrite IH by done. by rewrite filter_cons_True by done.
Qed.

Lemma deref_filter it it' (l : Iter.CleanupList) :
  it' <> it ->
  Iter.deref it' (filter (fun p => p.1 <> it) l) = Iter.deref it' l.
Proof.
  intros Hne. induction l as [|[n g] l IH]; [done|].
  destruct (decide (n = it)) as [->|Hn].
  - rewrite filter_cons_False by (simpl; tauto). simpl.
    by rewrite decide_False by congruence.
  - rewrite filter_cons_True by done. simpl. by rewrite IH.
Qed.

Lemma deref_filter_self it (l : Iter.CleanupList) :
  Iter.deref it (filter (fun p => p.1 <> it) l) = None.
Proof.
  induction l as [|[n g] l IH]; [done|].
  destruct (decide (n = it)) as [->|Hn].
  - by rewrite filter_cons_False by (simpl; tauto).
  - rewrite filter_cons_True by done. simpl. by rewrite decide_False.
Qed.

Lemma erase_invalid it l : Iter.deref it l = None -> Iter.erase it l = None.
Proof.
  induction l as [|[n g] l IH]; simpl; [done|].
  destruct (decide (n = it)); [done|]. intros H. by rewrite IH.
Qed.

Lemma NoDup_filter_nodes it (l : Iter.CleanupList) :
  NoDup l.*1 -> NoDup (filter (fun p => p.1 <> it) l).*1.
Proof.
  induction l as [|[n g] l IH]; [done|].
  rewrite fmap_cons. intros [Hn Hnd]%NoDup_cons. simpl in Hn.
  destruct (decide (n = it)) as [->|Hne].
  - rewrite filter_cons_False by (simpl; tauto). by apply IH.
  - rewrite filter_cons_True by done. rewrite fmap_cons. simpl.
    apply NoDup_cons. split; [|by apply IH].
    intros Hin. apply Hn.
    apply list_elem_of_fmap in Hin as ([n' g'] & -> & Hin).
    apply list_elem_of_filter in Hin as [_ Hin].
    apply list_elem_of_fmap. by exists (n', g').
Qed.

Lemma length_filter_node it f (l : Iter.CleanupList) :
  NoDup l.*1 -> Iter.deref it l = Some f ->
  length (filter (fun p => p.1 <> it) l) + 1 = length l.
Proof.
  induction l as [|[n g] l IH]; [done|].
  rewrite fmap_cons. intros [Hn Hnd]%NoDup_cons Hd. simpl in Hn, Hd.
  destruct (decide (n = it)) as [->|Hne].
  - rewrite filter_cons_False by (simpl; tauto).
    rewrite filter_other_nodes by done. simpl. lia.
  - rewrite filter_cons_True by done. simpl. rewrite IH by done. done.
Qed.

(** [removeSyncCleanup] with the iterator of a registered function
    deletes exactly that registration: the other elements keep their
    order and their iterators, the asynchronous list is untouched, and
    the iterator is invalid afterwards (a second removal is undefined). *)
Theorem remove_sync_cleanup_erases_one_registration
    (c : Iter.Connection) (it : Iter.CleanupIt) (f : fn) :
  Iter.wf c ->
  Iter.deref it (Iter.m_sync_cleanup_fns c) = Some f ->
  exists c',
    Iter.removeSyncCleanup it c = Some c'
    /\ Iter.m_sync_cleanup_fns c'
       = filter (fun p => p.1 <> it) (Iter.m_sync_cleanup_fns c)
    /\ Iter.m_async_cleanup_fns c' = Iter.m_async_cleanup_fns c
    /\ Iter.wf c'
    /\ (forall it', it' <> it ->
          Iter.deref it' (Iter.m_sync_cleanup_fns c')
          = Iter.deref it' (Iter.m_sync_cleanup_fns c))
    /\ length (Iter.m_sync_cleanup_fns c') + 1 = length (Iter.m_sync_cleanup_fns c)
    /\ Iter.removeSyncCleanup it c' = None.
Proof.
  intros Hwf Hd. unfold Iter.removeSyncCleanup.
  rewrite (erase_filter _ _ _ Hwf Hd). eexists. split; [reflexivity|]. simpl.
  split; [done|]. split; [done|].
  split; [by apply NoDup_filter_nodes|].
  split; [intros it' Hne; by apply deref_filter|].
  split; [by eapply length_filter_node|].
  by rewrite erase_invalid by apply deref_filter_self.
Qed.

Lemma remove_sync_cleanup_erases_one_registration_witness :
  exists c',
    Iter.removeSyncCleanup 20
      (Iter.mkConnection [(30, 3); (20, 2); (10, 1)] [(40, 7)]) = Some c'
    /\ Iter.m_sync_cleanup_fns c' = [(30, 3); (10, 1)]
    /\ Iter.removeSyncCleanup 20 c' = None.
Proof.
  destruct (remove_sync_cleanup_erases_one_registration
              (Iter.mkConnection [(30, 3); (20, 2); (10, 1)] [(40, 7)]) 20 2)
    as (c' & Hr & Hs & _ & _ & _ & _ & Hn).
  - apply (bool_decide_unpack _). by vm_compute.
  - reflexivity.
  - exists c'. split; [exact Hr|]. split; [exact Hs|exact Hn].
Defined.

(** [addSyncCleanup] puts the function first and returns an iterator
    that denotes it; the iterators handed out before keep denoting
    their functions; on the functions alone it is the [addSyncCleanup]
    of Part I; and removing with the returned iterator right away gives
    back the Connection as it was. *)
Theorem add_sync_cleanup_returns_its_iterator
    (c : Iter.Connection) (node : Iter.CleanupIt) (f : fn) :
  Iter.wf c ->
  node ∉ (Iter.m_sync_cleanup_fns c).*1 ->
  Iter.wf (Iter.addSyncCleanup node f c).1
  /\ Iter.deref (Iter.addSyncCleanup node f c).2
                (Iter.m_sync_cleanup_fns (Iter.addSyncCleanup node f c).1) = Some f
  /\ (forall it g, Iter.deref it (Iter.m_sync_cleanup_fns c) = Some g ->
        Iter.deref it (Iter.m_sync_cleanup_fns (Iter.addSyncCleanup node f c).1)
        = Some g)
  /\ forget_iterators (Iter.addSyncCleanup node f c).1
     = addSyncCleanup f (forget_iterators c)
  /\ Iter.removeSyncCleanup (Iter.addSyncCleanup node f c).2
                            (Iter.addSyncCleanup node f c).1 = Some c.
Proof.
  intros Hwf Hfresh. destruct c as [ss aa]. unfold Iter.wf in *. simpl in *.
  split; [by apply NoDup_cons|].
  split; [by rewrite decide_True|].
  split.
  { intros it g Hd. destruct (decide (node = it)) as [->|]; [|done].
    exfalso. apply Hfresh. apply deref_node. by eexists. }
  split; [done|].
  unfold Iter.removeSyncCleanup. simpl. by rewrite decide_True.
Qed.

Lemma add_sync_cleanup_returns_its_iterator_witness :
  Iter.addSyncCleanup 30 3 (Iter.mkConnection [(20, 2); (10, 1)] [])
    = (Iter.mkConnection [(30, 3); (20, 2); (10, 1)] [], 30)
  /\ Iter.removeSyncCleanup 30 (Iter.mkConnection [(30, 3); (20, 2); (10, 1)] [])
     = Some (Iter.mkConnection [(20, 2); (10, 1)] []).
Proof.
  split; [reflexivity|].
  refine (proj2 (proj2 (proj2 (proj2
    (add_sync_cleanup_returns_its_iterator
       (Iter.mkConnection [(20, 2); (10, 1)] []) 30 3 _ _))))).
  - apply (bool_decide_unpack _). by vm_compute.
  - apply (bool_decide_unpack _). by vm_compute.
Defined.

(** ** Field flags *)

Lemma land_pow2 a k :
  (0 <= k)%Z ->
  Z.land a (2 ^ k) = if Z.testbit a k then (2 ^ k)%Z else 0%Z.
Proof.
  intros Hk. apply Z.bits_inj'. intros n Hn.
  rewrite Z.land_spec, Z.pow2_bits_eqb by done.
  destruct (Z.testbit a k) eqn:E.
  - rewrite Z.pow2_bits_eqb by done.
    destruct (Z.eqb_spec k n) as [->|]; [by rewrite E|by rewrite andb_false_r].
  - rewrite Z.bits_0.
    destruct (Z.eqb_spec k n) as [->|]; [by rewrite E|by rewrite andb_false_r].
Qed.

Lemma to_bool_land_bit a k :
  (0 <= k)%Z -> Field.to_bool (Z.land a (2 ^ k)) = Z.testbit a k.
Proof.
  intros Hk. rewrite land_pow2 by done. unfold Field.to_bool.
  destruct (Z.testbit a k); [|done].
  destruct (Z.eqb_spec (2 ^ k) 0) as [E|]; [|done].
  pose proof (Z.pow_pos_nonneg 2 k). lia.
Qed.

Lemma accessor_bits flags :
  Field.accessor flags
  = Field.mkAccessor (Z.testbit flags 0) (Z.testbit flags 1) (Z.testbit flags 2)
                     (Z.testbit flags 3) (Z.testbit flags 4).
Proof.
  unfold Field.accessor.
  change Field.FIELD_IN with (2 ^ 0)%Z. change Field.FIELD_OUT with (2 ^ 1)%Z.
  change Field.FIELD_OPTIONAL with (2 ^ 2)%Z. change Field.FIELD_REQUESTED with (2 ^ 3)%Z.
  change Field.FIELD_BOXED with (2 ^ 4)%Z.
  by rewrite !to_bool_land_bit by lia.
Qed.

(** The five flags are independent bits.  [Accessor<Field, flags>]
    reads bits 0 to 4 of [flags] and nothing else; a flag word composed
    with [|] from any subset of the five constants decodes to exactly
    that subset; and a flag word in the range of the constants is the
    composition of what it decodes to. *)
Theorem accessor_flags_round_trip :
  (forall a, Field.accessor (Field.flags_of a) = a)
  /\ (forall flags,
        Field.accessor flags
        = Field.mkAccessor (Z.testbit flags 0) (Z.testbit flags 1) (Z.testbit flags 2)
                           (Z.testbit flags 3) (Z.testbit flags 4))
  /\ (forall flags, Field.accessor (flags mod 32) = Field.accessor flags)
  /\ (forall flags, (0 <= flags < 32)%Z ->
        Field.flags_of (Field.accessor flags) = flags).
Proof.
  split; [intros [[] [] [] [] []]; reflexivity|].
  split; [apply accessor_bits|].
  split.
  - intros flags. rewrite !accessor_bits. change 32%Z with (2 ^ 5)%Z.
    by rewrite !Z.mod_pow2_bits_low by lia.
  - intros flags Hr.
    assert (exists n : nat, n < 32 /\ flags = Z.of_nat n) as (n & Hn & ->).
    { exists (Z.to_nat flags). lia. }
    do 32 (destruct n as [|n]; [reflexivity|]). lia.
Qed.

Lemma accessor_flags_round_trip_witness :
  Field.accessor 21 = Field.mkAccessor true false true false true
  /\ Field.flags_of (Field.accessor 21) = 21%Z.
Proof.
  split; [reflexivity|].
  apply (proj2 (proj2 (proj2 accessor_flags_round_trip))). lia.
Defined.

(** For every flag word each of [has], [want], [setHas] and [setWant]
    of [StructField] has exactly one enabled overload, so the call
    compiles, and it behaves as follows: [has] asks the struct only for
    optional or boxed fields and is true otherwise; [want] asks only for
    requested fields and is true otherwise; [setHas] and [setWant]
    change the struct only for optional, respectively requested,
    fields. *)
Theorem struct_field_overloads_are_unambiguous
    (Struct : Type) (flags : Z) (m : Field.Methods Struct) (s : Struct) :
  Field.call Struct (Field.has_overloads Struct (Field.accessor flags) m) s
    = Some (if Z.testbit flags 2 then Field.getHas Struct m s
            else if Z.testbit flags 4 then Field.has_ Struct m s else true)
  /\ Field.call Struct (Field.want_overloads Struct (Field.accessor flags) m) s
     = Some (if Z.testbit flags 3 then Field.getWant Struct m s else true)
  /\ Field.call Struct (Field.setHas_overloads Struct (Field.accessor flags) m) s
     = Some (if Z.testbit flags 2 then Field.setHas Struct m s else s)
  /\ Field.call Struct (Field.setWant_overloads Struct (Field.accessor flags) m) s
     = Some (if Z.testbit flags 3 then Field.setWant Struct m s else s).
Proof.
  rewrite accessor_bits.
  generalize (Z.testbit flags 2) (Z.testbit flags 3) (Z.testbit flags 4).
  intros [] [] []; repeat split; reflexivity.
Qed.

(** ** The client counter *)

(** [addClient] followed by [removeClient] gives back the EventLoop as
    it was, and the wake byte is written exactly when there was no
    client before; this needs a counter that is not negative and below
    [INT_MAX].  [addClient] overflows exactly at [INT_MAX] (the counter
    is an [int]).  [removeClient] alone fails its assertion exactly when
    the counter is not positive, and otherwise changes the counter only;
    [addClient] then gives back the EventLoop. *)
Theorem remove_client_undoes_add_client_in_range (l : EventLoop) :
  ((0 <= m_num_clients l < INT_MAX)%Z ->
     addClient l ≫= removeClient = Some (l, bool_decide (m_num_clients l = 0%Z)))
  /\ (addClient l = None <-> (INT_MAX <= m_num_clients l)%Z)
  /\ (removeClient l = None <-> (m_num_clients l <= 0)%Z)
  /\ (forall l' wakes,
        (m_num_clients l <= INT_MAX)%Z -> removeClient l = Some (l', wakes) ->
        l' = set_num_clients (m_num_clients l - 1)%Z l
        /\ (wakes = true <-> m_num_clients l = 1%Z)
        /\ addClient l' = Some l).
Proof.
  destruct l as [pf af n wf pfd th mx]. unfold removeClient, addClient. simpl.
  split_and!.
  - intros Hn. rewrite decide_True by lia. simpl. rewrite decide_True by lia.
    unfold set_num_clients. simpl.
    by replace (n + 1 - 1)%Z with n by lia.
  - destruct (decide (n < INT_MAX)%Z); split; intros; try done; lia.
  - destruct (decide (0 < n)%Z); split; intros; try done; lia.
  - intros l' wakes Hmax. destruct (decide (0 < n)%Z); [|done].
    intros [= <- <-]. unfold set_num_clients. simpl.
    split; [done|]. split.
    + rewrite bool_decide_eq_true. lia.
    + rewrite decide_True by lia. do 2 f_equal. lia.
Qed.

Lemma remove_client_undoes_add_client_in_range_witness :
  addClient (mkEventLoop None [] 0 3 4 false None) ≫= removeClient
  = Some (mkEventLoop None [] 0 3 4 false None, true).
Proof.
  apply (proj1 (remove_client_undoes_add_client_in_range
                  (mkEventLoop None [] 0 3 4 false None))).
  vm_compute. split; [discriminate|reflexivity].
Defined.

(** ** The dispatcher runs the deferred queue in order *)

Lemma dispatch_ok_step l w w' :
  step l w = Some w' -> count_ok w -> dispatch_ok w -> dispatch_ok w'.
Proof.
  intros H Hcount Hok.
  step_inv H.
  all: destruct Hok as [Hq Hr].
  all: repeat match goal with
         | E : pc_async _ = _ |- _ => rewrite E in Hr
         end.
  all: split; simpl in *; use_eqs; try done.
  all: try (rewrite Hr; done).
  all: try match goal with
         | E : m_async_fns _ = _ :: _ |- _ =>
             rewrite <- Hq, E, <- app_assoc; done
         end.
  all: try (rewrite app_assoc, Hq; done).
  (* startAsyncThread creates the dispatcher: there was none before *)
  rewrite (count_thread _ Hcount) in Hr by done. done.
Qed.

Lemma dispatch_ok_initial wait_fd post_fd refs calls :
  dispatch_ok (initial wait_fd post_fd refs calls).
Proof. done. Qed.

Lemma reachable_dispatch_ok wait_fd post_fd refs calls sched w :
  run sched (initial wait_fd post_fd refs calls) = Some w -> dispatch_ok w.
Proof.
  intros Hrun.
  apply (run_invariant (fun w => count_ok w /\ dispatch_ok w)) in Hrun; [tauto| |].
  - intros l w1 w2 Hs [Hc Hd]. split; [by eapply count_ok_step|by eapply dispatch_ok_step].
  - split; [apply count_ok_initial|apply dispatch_ok_initial].
Qed.

(** On every schedule the functions the dispatcher has started,
    followed by the deferred queue, are the functions in the order in
    which [~Connection] deferred them: the dispatcher starts them in
    queue order and each entry once.  After the transfer that order is
    the reverse of the registration order.  The dispatcher runs one
    function at a time: the functions it started are the ones that
    returned plus the one it is running. *)
Theorem dispatcher_runs_queue_in_order wait_fd post_fd refs calls sched w :
  run sched (initial wait_fd post_fd refs calls) = Some w ->
  dispatch_order w ++ m_async_fns (ev_loop w) = defer_order w
  /\ (in_sync_phase (pc_conn w) = false -> in_transfer_phase (pc_conn w) = false ->
        dispatch_order w ++ m_async_fns (ev_loop w) = rev (registered_async w))
  /\ async_begins (trace w) = running_async (pc_async w) ++ async_ends (trace w)
  /\ length (async_ends (trace w)) <= length (async_begins (trace w))
     <= length (async_ends (trace w)) + 1.
Proof.
  intros Hrun.
  destruct (reachable_dispatch_ok _ _ _ _ _ _ Hrun) as [Hq Hr].
  destruct (reachable_conn_ok _ _ _ _ _ _ Hrun) as [_ Ha _ _ _ _ _].
  unfold dispatch_order, defer_order, registered_async.
  split; [exact Hq|]. split.
  - intros E1 E2. rewrite Hq, rev_involutive.
    destruct (pc_conn w); try done; by destruct Ha.
  - split; [exact Hr|]. rewrite Hr, length_app.
    destruct (pc_async w); simpl; lia.
Qed.

Lemma dispatcher_runs_queue_in_order_witness :
  run teardown_schedule (initial 3 4 0 []) = Some teardown_world
  /\ registered_async teardown_world = [7; 8]
  /\ dispatch_order teardown_world = [8]
  /\ m_async_fns (ev_loop teardown_world) = [7]
  /\ dispatch_order teardown_world ++ m_async_fns (ev_loop teardown_world)
     = rev (registered_async teardown_world).
Proof.
  assert (run teardown_schedule (initial 3 4 0 []) = Some teardown_world) as Hrun
    by (vm_compute; reflexivity).
  split; [exact Hrun|]. do 3 (split; [reflexivity|]).
  apply (proj1 (proj2 (dispatcher_runs_queue_in_order 3 4 0 [] _ _ Hrun)));
    reflexivity.
Defined.

(** ** Assertions, and the lock discipline *)

Lemma user_ref_le_refs us i u :
  us !! i = Some u -> (user_ref u <= user_refs us)%Z.
Proof.
  revert i. induction us as [|x us IH]; intros [|i] Hi; simplify_eq/=.
  - pose proof (user_refs_nonneg us). lia.
  - specialize (IH _ Hi). assert (0 <= user_ref x)%Z by (by destruct x as [[] []]). lia.
Qed.

Lemma asserts_ok_step l w w' :
  step l w = Some w' -> count_ok w -> asserts_ok w -> asserts_ok w'.
Proof.
  intros H Hcount Hok.
  pose proof (count_refs _ Hcount) as Hc.
  pose proof (user_refs_nonneg (users w)) as Hu.
  assert (0 <= conn_ref (pc_conn w))%Z as Hcr by (destruct (pc_conn w); simpl; lia).
  assert (0 <= async_ref (pc_async w))%Z as Har by (destruct (pc_async w); simpl; lia).
  step_inv H.
  all: destruct Hok as [Hf Hl Ha Hn Hus].
  all: repeat match goal with
         | E : pc_loop _ = _ |- _ => rewrite E in Hf
         end.
  all: try match goal with
         | Hi : users _ !! _ = Some _ |- _ =>
             pose proof (user_ref_le_refs _ _ _ Hi) as Hle; simpl in Hle
         end.
  all: repeat match goal with
         | E : pc_conn _ = _ |- _ => rewrite E in Hc, Hcr
         | E : pc_async _ = _ |- _ => rewrite E in Hc, Har
         end.
  all: simpl in *; try lia; try congruence.
  all: split; simpl; use_eqs; try done; try congruence.
  all: try (intros j c' Hj; try user_lookup Hj; by apply Hus in Hj).
Qed.

Lemma asserts_ok_initial wait_fd post_fd refs calls :
  asserts_ok (initial wait_fd post_fd refs calls).
Proof.
  split; simpl; try done.
  intros i c Hi. rewrite list_lookup_fmap in Hi.
  destruct (calls !! i); simplify_eq/=.
Qed.

Lemma reachable_asserts_ok wait_fd post_fd refs calls sched w :
  run sched (initial wait_fd post_fd refs calls) = Some w -> asserts_ok w.
Proof.
  intros Hrun.
  apply (run_invariant (fun w => count_ok w /\ asserts_ok w)) in Hrun; [tauto| |].
  - intros l w1 w2 Hs [Hc Hd]. split; [by eapply count_ok_step|by eapply asserts_ok_step].
  - split; [apply count_ok_initial|apply asserts_ok_initial].
Qed.

(** The client counter where callers keep the reference discipline (in
    the model a thread starts [RemoveClient] only for a reference
    obtained with [AddClient]; the code does not check this).  On every
    such schedule the counter is the number of references held -- by
    those callers, by the Connection until its destructor's
    [removeClient], by the dispatcher around a deferred function -- so
    it is never negative, and neither the [removeClient] of
    [~Connection] nor that of the dispatcher fails
    [assert(m_num_clients > 0)].  The flag [loop_thread] is set exactly
    while the loop thread is inside [loop], whether it leaves by return
    or by exception. *)
Theorem client_counter_counts_references wait_fd post_fd refs calls sched w :
  run sched (initial wait_fd post_fd refs calls) = Some w ->
  m_num_clients (ev_loop w)
    = (Z.of_nat (env_refs w) + conn_ref (pc_conn w) + async_ref (pc_async w)
       + user_refs (users w))%Z
  /\ (0 <= m_num_clients (ev_loop w))%Z
  /\ pc_async w <> A_aborted /\ pc_conn w <> D_aborted
  /\ loop_thread w = in_loop (pc_loop w).
Proof.
  intros Hrun.
  destruct (reachable_asserts_ok _ _ _ _ _ _ Hrun) as [Hf Hl Ha Hn Hus].
  destruct (reachable_count_ok _ _ _ _ _ _ Hrun) as [Hc _].
  split; [exact Hc|]. split; [|done].
  rewrite Hc. pose proof (user_refs_nonneg (users w)).
  assert (0 <= conn_ref (pc_conn w))%Z by (destruct (pc_conn w); simpl; lia).
  assert (0 <= async_ref (pc_async w))%Z by (destruct (pc_async w); simpl; lia).
  lia.
Qed.

Lemma client_counter_counts_references_witness :
  run teardown_schedule (initial 3 4 0 []) = Some teardown_world
  /\ m_num_clients (ev_loop teardown_world) = 1%Z
  /\ pc_conn teardown_world <> D_aborted
  /\ loop_thread teardown_world = true.
Proof.
  assert (run teardown_schedule (initial 3 4 0 []) = Some teardown_world) as Hrun
    by (vm_compute; reflexivity).
  split; [exact Hrun|]. split; [reflexivity|].
  destruct (client_counter_counts_references 3 4 0 [] _ _ Hrun) as (_ & _ & _ & Hn & Hf).
  split; [exact Hn|exact Hf].
Defined.


Lemma holds_owner w a : mutex_ok w -> holds a w = true -> m_mutex (ev_loop w) = Some a.
Proof.
  intros [HL HA HC HU]. destruct a as [| | |i]; simpl.
  - apply HL.
  - apply HA.
  - apply HC.
  - destruct (users w !! i) as [[c pc]|] eqn:Hi; [|done]. apply (HU _ _ _ Hi).
Qed.

Lemma guarded_write_step l w w' :
  step l w = Some w' -> mutex_ok w ->
  guarded (ev_loop w') <> guarded (ev_loop w) ->
  exists a, actor_of l = Some a /\ holds a w = true.
Proof.
  intros H Hok Hne.
  step_inv H.
  all: eexists; (split; [reflexivity|]); simpl.
  all: repeat match goal with
         | E : pc_loop _ = _ |- _ => rewrite E
         | E : pc_async _ = _ |- _ => rewrite E
         | E : pc_conn _ = _ |- _ => rewrite E
         | E : users _ !! _ = _ |- _ => rewrite E
         end.
  all: done.
Qed.

(** Lock discipline of [m_mutex] on every schedule.  A thread that is
    inside a guarded section owns the mutex, so at most one thread is
    inside one.  A step that changes the slot [m_post_fn], the queue
    [m_async_fns], the counter [m_num_clients] or creates the dispatcher
    is taken by the thread that owns the mutex.  A thread that has left
    its function, by return or by exception, does not own the mutex. *)
Theorem guarded_members_change_only_under_lock wait_fd post_fd refs calls sched w :
  run sched (initial wait_fd post_fd refs calls) = Some w ->
  (forall a, holds a w = true -> m_mutex (ev_loop w) = Some a)
  /\ (forall a b, holds a w = true -> holds b w = true -> a = b)
  /\ (forall l w', step l w = Some w' ->
        guarded (ev_loop w') <> guarded (ev_loop w) ->
        exists a, actor_of l = Some a /\ holds a w = true
                  /\ m_mutex (ev_loop w) = Some a)
  /\ (in_loop (pc_loop w) = false -> m_mutex (ev_loop w) <> Some ALoop)
  /\ (pc_conn w = D_done \/ pc_conn w = D_threw -> m_mutex (ev_loop w) <> Some AConn)
  /\ (pc_async w = A_done \/ pc_async w = A_threw ->
        m_mutex (ev_loop w) <> Some AAsync)
  /\ (forall i c pc, users w !! i = Some (c, pc) -> pc = U_done \/ pc = U_threw ->
        m_mutex (ev_loop w) <> Some (AUser i)).
Proof.
  intros Hrun. pose proof (reachable_mutex_ok _ _ _ _ _ _ Hrun) as Hok.
  split; [intros a; by apply holds_owner|].
  split.
  { intros a b Ha Hb. apply (holds_owner _ _ Hok) in Ha, Hb. congruence. }
  split.
  { intros l w' Hs Hne. destruct (guarded_write_step _ _ _ Hs Hok Hne) as (a & Hl & Hh).
    exists a. split; [done|]. split; [done|]. by apply holds_owner. }
  destruct Hok as [HL HA HC HU].
  split; [intros E Hm; apply HL in Hm; by destruct (pc_loop w)|].
  split; [intros [E|E] Hm; apply HC in Hm; by rewrite E in Hm|].
  split; [intros [E|E] Hm; apply HA in Hm; by rewrite E in Hm|].
  intros i c pc Hi [->| ->] Hm; by apply (HU _ _ _ Hi) in Hm.
Qed.

Lemma guarded_members_change_only_under_lock_witness :
  exists w w',
    run (take 12 teardown_schedule) (initial 3 4 0 []) = Some w
    /\ step LConn w = Some w'
    /\ m_async_fns (ev_loop w) = [] /\ m_async_fns (ev_loop w') = [8]
    /\ holds AConn w = true
    /\ m_mutex (ev_loop w) = Some AConn.
Proof.
  eexists _, _. split; [vm_compute; reflexivity|]. split; [vm_compute; reflexivity|].
  do 2 (split; [reflexivity|]).
  destruct (proj1 (proj2 (proj2
    (guarded_members_change_only_under_lock 3 4 0 []
       (take 12 teardown_schedule) _ ltac:(vm_compute; reflexivity))))
    LConn _ ltac:(vm_compute; reflexivity)) as (a & Ha & Hh & Hm).
  - vm_compute. congruence.
  - injection Ha as <-. split; [exact Hh|exact Hm].
Defined.

(** ** Failure of the write to the wake channel *)

Lemma reachable_fds_ok wait_fd post_fd refs calls sched w :
  run sched (initial wait_fd post_fd refs calls) = Some w -> fds_ok wait_fd post_fd w.
Proof.
  intros Hrun. eapply run_invariant; [apply fds_ok_step|apply Hrun|apply fds_ok_initial].
Qed.

Lemma post_fd_open wait_fd post_fd w :
  post_fd <> (-1)%Z -> fds_ok wait_fd post_fd w ->
  m_post_fd (ev_loop w) = (-1)%Z -> pc_loop w = L_done.
Proof.
  unfold fds_ok. intros Hfd Hok Hm.
  destruct (pc_loop w); try done; destruct Hok as (_ & Hp & _); congruence.
Qed.

Lemma write_failed_step wait_fd post_fd l w w' :
  post_fd <> (-1)%Z -> step l w = Some w' -> fds_ok wait_fd post_fd w ->
  (write_failed w -> wait_stream_open (pc_loop w) = false) ->
  write_failed w' -> wait_stream_open (pc_loop w') = false.
Proof.
  intros Hfd H Hok Hinv Hwf.
  pose proof (post_fd_open _ _ _ Hfd Hok) as Hopen. clear Hok.
  unfold write_failed in *.
  step_inv H.
  all: try done.
  all: try (rewrite Hopen by assumption; reflexivity).
  all: try (specialize (Hinv Hwf); discriminate Hinv).
  all: apply Hinv.
  all: destruct Hwf as [Hwf|[Hwf|(j & c' & Hj)]]; simpl in *; try congruence;
    try (left; congruence); try (right; left; congruence);
    try (right; right; eauto; fail).
  all: try (user_lookup Hj; right; right; eauto; fail).
Qed.

Lemma reachable_write_failed wait_fd post_fd refs calls sched w :
  post_fd <> (-1)%Z ->
  run sched (initial wait_fd post_fd refs calls) = Some w ->
  write_failed w -> wait_stream_open (pc_loop w) = false.
Proof.
  intros Hfd Hrun.
  apply (run_invariant (fun w => fds_ok wait_fd post_fd w
                                 /\ (write_failed w -> wait_stream_open (pc_loop w) = false)))
    in Hrun; [tauto| |].
  - intros l w1 w2 Hs [Hf Hw].
    split; [by eapply fds_ok_step|by eapply write_failed_step].
  - split; [apply fds_ok_initial|].
    intros [H|[H|(i & c & H)]]; simpl in H; try done.
    rewrite list_lookup_fmap in H. destruct (calls !! i); simplify_eq/=.
Qed.

(** The write of the wake byte in [post] and in [removeClient]
    ([KJ_SYSCALL(write(m_post_fd, ...))]) succeeds in every state in
    which the loop thread has not destroyed [wait_stream], and fails in
    every state in which it has: after line 178 or after the unwinding
    of line 168 with EPIPE, and after line 180 on the closed descriptor.
    So on every schedule, if the write of some thread has thrown, the
    loop thread had already left its dispatch cycle, by [break] or by
    exception.  The descriptor handed to the constructor is a valid
    one. *)
Theorem wake_write_fails_only_after_read_end_closed
    wait_fd post_fd refs calls sched w :
  post_fd <> (-1)%Z ->
  run sched (initial wait_fd post_fd refs calls) = Some w ->
  (write_failed w -> wait_stream_open (pc_loop w) = false)
  /\ (wait_stream_open (pc_loop w) = true ->
        write_post_fd (ev_loop w) (wait_stream_open (pc_loop w)) (wake w)
        = Some (S (wake w)))
  /\ (wait_stream_open (pc_loop w) = false ->
        write_post_fd (ev_loop w) (wait_stream_open (pc_loop w)) (wake w) = None).
Proof.
  intros Hfd Hrun. split; [by eapply reachable_write_failed|].
  pose proof (reachable_fds_ok _ _ _ _ _ _ Hrun) as Hok.
  unfold write_post_fd. split.
  - intros Hopen. rewrite Hopen. rewrite decide_False; [done|].
    intros Hm. apply (post_fd_open _ _ _ Hfd Hok) in Hm. by rewrite Hm in Hopen.
  - intros ->. by case_decide.
Qed.

Lemma wake_write_fails_only_after_read_end_closed_witness :
  run (race_schedule ++ [LLoop 1] ++ replicate 4 LAsync) (initial 3 4 0 [])
    = Some race_epipe_world
  /\ pc_async race_epipe_world = A_threw
  /\ m_post_fd (ev_loop race_epipe_world) = 4%Z
  /\ pc_loop race_epipe_world = L_close_post
  /\ wait_stream_open (pc_loop race_epipe_world) = false.
Proof.
  assert (run (race_schedule ++ [LLoop 1] ++ replicate 4 LAsync)
              (initial 3 4 0 []) = Some race_epipe_world) as Hrun
    by (vm_compute; reflexivity).
  split; [exact Hrun|]. do 3 (split; [reflexivity|]).
  apply (wake_write_fails_only_after_read_end_closed 3 4 0 [] _ _
           ltac:(discriminate) Hrun).
  right. left. reflexivity.
Defined.

(** ** What the destructor of the EventLoop needs *)



(** ** The name a Thread proxy reports *)

(** [getName] on the proxy that [makeThread] returned for a caller
    named [name] yields the name of the executable's thread followed by
    [" (from name)"], from the construction of the proxy to the end of
    its destructor; and the assertion in the proxy's constructor, that
    the worker has created its Waiter, holds. *)
Theorem get_name_reports_origin ThreadName exe_name name req cb sched w :
  trun ThreadName sched (tinitial exe_name name req cb) = Some w ->
  proxy_exists (pc_server w) = true ->
  getName w = ThreadName exe_name +:+ " (from " +:+ name +:+ ")"
  /\ getName w <> ""
  /\ pc_server w <> T_aborted.
Proof.
  intros Hrun Hex.
  pose proof (reachable_thread_ok ThreadName exe_name name req cb sched w Hrun) as Hok.
  pose proof (t_exists _ _ _ _ Hok Hex) as Hp.
  assert (worker_started (pc_worker w) = true) as Hst by (by destruct (pc_worker w)).
  unfold getName. rewrite (t_name _ _ _ _ Hok Hst).
  split; [done|]. split; [apply long_name_not_empty|].
  apply (t_no_abort _ _ _ _ Hok).
Qed.

Lemma get_name_reports_origin_witness :
  trun ThreadName_example thread_lifecycle (tinitial "bitcoin-node" "x" ∅ ∅)
    = Some thread_final_world
  /\ pc_server thread_final_world = T_done
  /\ getName thread_final_world = "bitcoin-node-123/main-456 (from x)".
Proof.
  assert (trun ThreadName_example thread_lifecycle (tinitial "bitcoin-node" "x" ∅ ∅)
          = Some thread_final_world) as Hrun by (vm_compute; reflexivity).
  split; [exact Hrun|]. split; [reflexivity|].
  apply (get_name_reports_origin ThreadName_example "bitcoin-node" "x" ∅ ∅ _ _ Hrun).
  reflexivity.
Defined.

(** ** A clean shutdown for arbitrary cleanup lists *)

(** Evaluate one step of any thread on a world written out as a
    record. *)
Ltac eval_any :=
  cbv beta iota zeta delta
    [step loop_step async_step conn_step user_step post_step add_client_step
     remove_client_step reg_step startAsyncThread acquire release write_post_fd
     wait_stream_open
     addClient removeClient addSyncCleanup addAsyncCleanup
     set_pc_loop set_pc_async set_pc_conn set_users set_user set_wake
     set_loop_thread set_env_refs set_conn emit upd_loop set_mutex set_post_fn
     set_async_fns set_num_clients set_wait_fd set_post_fd set_async_thread
     ev_loop conn loop_thread wake pc_loop pc_async pc_conn users env_refs trace
     m_post_fn m_async_fns m_num_clients m_wait_fd m_post_fd m_async_thread
     m_mutex m_sync_cleanup_fns m_async_cleanup_fns
     fmap option_fmap option_map tail].

Ltac step_head tac :=
  match goal with
  | |- context [run (?l :: ?s) ?w] =>
      let H := fresh "Hstep" in
      eassert (step l w = Some _) as H;
      [ eval_any; tac; reflexivity
      | rewrite (run_cons_some _ _ _ _ H); clear H ]
  end.

Lemma run_register_sync ss : forall l s a lt wk pl pa us er tr,
  m_mutex l = None ->
  run (map LRegSync ss) (mkWorld l (mkConnection s a) lt wk pl pa D_alive us er tr)
  = Some (mkWorld l (mkConnection (rev ss ++ s) a) lt wk pl pa D_alive us er
                  (rev (map EvRegSync ss) ++ tr)).
Proof.
  induction ss as [|f ss IH]; intros l s a lt wk pl pa us er tr Hm; [done|].
  cbn [map].
  assert (step (LRegSync f) (mkWorld l (mkConnection s a) lt wk pl pa D_alive us er tr)
          = Some (mkWorld l (mkConnection (f :: s) a) lt wk pl pa D_alive us er
                          (EvRegSync f :: tr))) as Hs.
  { unfold step, reg_step. simpl. by rewrite Hm. }
  rewrite (run_cons_some _ _ _ _ Hs), IH by done.
  simpl. by rewrite <- !app_assoc.
Qed.

Lemma run_register_async aa : forall l s a lt wk pl pa us er tr,
  m_mutex l = None ->
  run (map LRegAsync aa) (mkWorld l (mkConnection s a) lt wk pl pa D_alive us er tr)
  = Some (mkWorld l (mkConnection s (rev aa ++ a)) lt wk pl pa D_alive us er
                  (rev (map EvRegAsync aa) ++ tr)).
Proof.
  induction aa as [|f aa IH]; intros l s a lt wk pl pa us er tr Hm; [done|].
  cbn [map].
  assert (step (LRegAsync f) (mkWorld l (mkConnection s a) lt wk pl pa D_alive us er tr)
          = Some (mkWorld l (mkConnection s (f :: a)) lt wk pl pa D_alive us er
                          (EvRegAsync f :: tr))) as Hs.
  { unfold step, reg_step. simpl. by rewrite Hm. }
  rewrite (run_cons_some _ _ _ _ Hs), IH by done.
  simpl. by rewrite <- !app_assoc.
Qed.

(** The first loop of [~Connection]. *)
Lemma run_sync_drain s : forall l a lt wk pl pa us er tr,
  run (times (length s) [LConn; LConn])
      (mkWorld l (mkConnection s a) lt wk pl pa D_sync us er tr)
  = Some (mkWorld l (mkConnection [] a) lt wk pl pa D_sync us er
                  (rev (sync_events s) ++ tr)).
Proof.
  induction s as [|f s IH]; intros l a lt wk pl pa us er tr; [done|].
  unfold times. cbn [length replicate concat app]. fold (times (length s) [LConn; LConn]).
  do 2 step_head idtac. rewrite IH. simpl. by rewrite <- !app_assoc.
Qed.

(** The second loop of [~Connection]. *)
Lemma run_transfer a : forall pf q n wfd pfd th lt wk pl pa us er tr,
  run (times (length a) [LConn; LConn])
      (mkWorld (mkEventLoop pf q n wfd pfd th None) (mkConnection [] a)
               lt wk pl pa D_async us er tr)
  = Some (mkWorld (mkEventLoop pf (q ++ a) n wfd pfd th None) (mkConnection [] [])
                  lt wk pl pa D_async us er (rev (map EvDefer a) ++ tr)).
Proof.
  induction a as [|f a IH]; intros pf q n wfd pfd th lt wk pl pa us er tr.
  - simpl. by rewrite app_nil_r.
  - unfold times. cbn [length replicate concat app]. fold (times (length a) [LConn; LConn]).
    do 2 step_head idtac. rewrite IH. simpl. by rewrite <- !app_assoc.
Qed.

(** The loop of the dispatcher when nobody else holds a reference. *)
Lemma run_dispatch q : forall pf wfd pfd lt wk pl pc us er tr,
  pfd <> (-1)%Z -> wait_stream_open pl = true ->
  run (times (length q) (replicate 7 LAsync))
      (mkWorld (mkEventLoop pf q 0 wfd pfd true (Some AAsync)) (mkConnection [] [])
               lt wk pl A_top pc us er tr)
  = Some (mkWorld (mkEventLoop pf [] 0 wfd pfd true (Some AAsync)) (mkConnection [] [])
                  lt (length q + wk) pl A_top pc us er (rev (async_events q) ++ tr)).
Proof.
  induction q as [|f q IH]; intros pf wfd pfd lt wk pl pc us er tr Hfd Hpl; [done|].
  unfold times. cbn [length replicate concat app].
  fold (replicate 7 LAsync). fold (times (length q) (replicate 7 LAsync)).
  do 4 step_head idtac.
  step_head ltac:(cbn).
  step_head ltac:(rewrite (decide_False (P := pfd = (-1)%Z)) by done;
                  fold (wait_stream_open pl); rewrite Hpl).
  step_head idtac.
  change (0 + 1 - 1)%Z with 0%Z. rewrite IH by done.
  cbn [length]. replace (S (length q) + wk) with (length q + S wk) by lia.
  do 2 f_equal. simpl. by rewrite <- !app_assoc.
Qed.

Lemma run_bind_some s w w1 (k : world -> option world) :
  run s w = Some w1 -> run s w ≫= k = k w1.
Proof. by intros ->. Qed.

(** Evaluate the first part of a schedule with a lemma about it. *)
Ltac run_part lem :=
  rewrite run_app; erewrite run_bind_some; [|apply lem].

(** The destruction, the dispatcher and the exit of the loop, from the
    state in which the lists hold [sl] and [al]. *)
Lemma shutdown_from_lists wfd pfd sl al tr0 :
  pfd <> (-1)%Z ->
  exists w,
    run (destructor_schedule (length sl) (length al)
         ++ dispatcher_schedule (length al) ++ replicate 8 (LLoop 1))
        (mkWorld (mkEventLoop None [] 1 wfd pfd false None) (mkConnection sl al)
                 true 0 L_read A_unstarted D_alive [] 0 tr0)
    = Some w
    /\ trace w = [EvClose pfd; EvClose wfd] ++ rev (async_events al)
                 ++ [EvStartAsync] ++ rev (map EvDefer al)
                 ++ rev (sync_events sl) ++ tr0
    /\ pc_conn w = D_done /\ pc_loop w = L_done
    /\ pc_async w = match al with [] => A_unstarted | _ :: _ => A_done end
    /\ EventLoop_dtor w = DtorReturns.
Proof.
  intros Hfd. unfold destructor_schedule. rewrite <- !app_assoc. cbn [app].
  step_head idtac.
  run_part run_sync_drain.
  cbn [app]. step_head idtac.
  run_part run_transfer.
  cbn [app replicate]. do 2 step_head idtac.
  destruct al as [|a q].
  - (* nothing deferred: no dispatcher *)
    cbn [length dispatcher_schedule app replicate].
    step_head idtac. step_head ltac:(cbn).
    step_head ltac:(rewrite (decide_False (P := pfd = (-1)%Z)) by done).
    do 2 step_head idtac.
    step_head ltac:(cbn). change (1 - 1)%Z with 0%Z.
    do 3 step_head idtac. step_head ltac:(cbn). do 3 step_head idtac.
    eexists. split; [reflexivity|]. split; [reflexivity|].
    do 3 (split; [reflexivity|]). reflexivity.
  - (* the dispatcher is created and empties the queue *)
    cbn [length dispatcher_schedule app replicate].
    step_head idtac. step_head ltac:(cbn).
    step_head ltac:(rewrite (decide_False (P := pfd = (-1)%Z)) by done).
    do 2 step_head idtac. change (1 - 1)%Z with 0%Z.
    step_head idtac.
    rewrite <- app_assoc. change (S (length q)) with (length (a :: q)).
    rewrite run_app. erewrite run_bind_some; [|by apply run_dispatch].
    cbn [app]. step_head ltac:(cbn).
    step_head ltac:(cbn).
    do 3 step_head idtac. step_head ltac:(cbn). do 3 step_head idtac.
    eexists. split; [reflexivity|]. split.
    { cbn [trace]. simpl. by rewrite <- !app_assoc. }
    do 3 (split; [reflexivity|]). reflexivity.
Qed.

(** For every list of synchronous and of asynchronous cleanup functions
    there is a teardown that ends cleanly: on [clean_shutdown] the
    destructor of the Connection returns, every cleanup function has run
    once -- the synchronous ones inside the destructor, then the
    asynchronous ones on the dispatcher, each list most recent
    registration first -- the dispatcher has terminated if it was
    created, [loop] has returned after closing both descriptors, and
    [~EventLoop] passes all its assertions. *)
Theorem clean_shutdown_completes wait_fd post_fd ss aa :
  post_fd <> (-1)%Z ->
  exists w,
    run (clean_shutdown ss aa) (initial wait_fd post_fd 0 []) = Some w
    /\ rev (trace w) = clean_shutdown_events wait_fd post_fd ss aa
    /\ pc_conn w = D_done /\ pc_loop w = L_done
    /\ pc_async w = match aa with [] => A_unstarted | _ :: _ => A_done end
    /\ EventLoop_dtor w = DtorReturns.
Proof.
  intros Hfd. unfold clean_shutdown, clean_shutdown_events, initial.
  change (Z.of_nat 0 + 1)%Z with 1%Z. cbn [map app].
  step_head idtac.
  rewrite run_app, run_register_sync by done. cbn [mbind option_bind].
  rewrite run_app, run_register_async by done. cbn [mbind option_bind].
  rewrite !app_nil_r.
  rewrite <- (length_rev ss), <- (length_rev aa).
  destruct (shutdown_from_lists wait_fd post_fd (rev ss) (rev aa)
              (rev (map EvRegAsync aa) ++ rev (map EvRegSync ss)) Hfd)
    as (w & Hrun & Htr & Hc & Hl & Ha & Hd).
  exists w. split; [exact Hrun|]. split.
  { rewrite Htr. simpl.
    repeat (rewrite rev_app_distr || rewrite rev_involutive). simpl.
    repeat (rewrite rev_app_distr || rewrite rev_involutive).
    by rewrite <- !app_assoc. }
  do 2 (split; [done|]). split; [|done].
  rewrite Ha. destruct aa as [|a aa]; [done|]. simpl.
  destruct (rev aa ++ [a]) eqn:E; [|done]. by destruct (rev aa).
Qed.

Lemma clean_shutdown_completes_witness :
  exists w,
    run (clean_shutdown [1; 2] [7; 8]) (initial 3 4 0 []) = Some w
    /\ rev (trace w)
       = [EvRegSync 1; EvRegSync 2; EvRegAsync 7; EvRegAsync 8;
          EvBegin AConn 2; EvEnd AConn 2; EvBegin AConn 1; EvEnd AConn 1;
          EvDefer 8; EvDefer 7; EvStartAsync;
          EvBegin AAsync 8; EvEnd AAsync 8; EvBegin AAsync 7; EvEnd AAsync 7;
          EvClose 3; EvClose 4]
    /\ EventLoop_dtor w = DtorReturns.
Proof.
  destruct (clean_shutdown_completes 3 4 [1; 2] [7; 8] ltac:(discriminate))
    as (w & Hrun & Htr & _ & _ & _ & Hd).
  exists w. split; [exact Hrun|]. split; [exact Htr|exact Hd].
Defined.

(** ** When the exit test of the loop is sound *)

Lemma no_add_client_step l w w' :
  step l w = Some w' -> is_async_registration l = false ->
  no_add_client w -> no_add_client w'.
Proof.
  intros H Hl Hok.
  step_inv H.
  all: destruct Hok as [Hd Hq Ha Hu].
  all: try (exfalso; eapply Hu; eassumption).
  all: split; simpl; try done; try congruence.
  all: intros j pc' Hj; try user_lookup Hj; by apply Hu in Hj.
Qed.

Lemma exit_sound_step l w w' :
  step l w = Some w' -> no_add_client w ->
  (exiting (pc_loop w) = true -> m_num_clients (ev_loop w) = 0%Z) ->
  exiting (pc_loop w') = true -> m_num_clients (ev_loop w') = 0%Z.
Proof.
  intros H Hok Hinv He.
  step_inv H.
  all: destruct Hok as [Hd Hq Ha Hu].
  all: try (exfalso; eapply Hu; eassumption).
  all: try (by apply Hinv).
  all: try (specialize (Hinv He); lia).
  all: try congruence.
Qed.

Lemma run_invariant_on (Q : label -> bool) (P : world -> Prop) :
  (forall l w w', step l w = Some w' -> Q l = true -> P w -> P w') ->
  forall sched w w',
    forallb Q sched = true -> run sched w = Some w' -> P w -> P w'.
Proof.
  intros Hstep sched. induction sched as [|l sched IH]; intros w w' HQ Hrun Hw.
  - by simplify_eq/=.
  - simpl in Hrun, HQ. apply andb_true_iff in HQ as [Hl HQ].
    destruct (step l w) as [w1|] eqn:Hs; [|done].
    eapply IH; [done|done|]. by eapply Hstep.
Qed.

(** Where nothing can call [addClient] while the loop thread is between
    the two reads of its exit test -- no asynchronous cleanup function
    is registered, so that no dispatcher is created, and no thread calls
    [AddClient] -- the test is sound: on every such schedule the loop
    thread is past the test, closing the descriptors or returned, only
    with a client counter of zero and an empty deferred queue. *)
Theorem exit_test_is_sound_without_add_client
    wait_fd post_fd refs calls sched w :
  forallb (fun l => negb (is_async_registration l)) sched = true ->
  CallAddClient ∉ calls ->
  run sched (initial wait_fd post_fd refs calls) = Some w ->
  (exiting (pc_loop w) = true -> m_num_clients (ev_loop w) = 0%Z)
  /\ m_async_fns (ev_loop w) = []
  /\ pc_async w = A_unstarted.
Proof.
  intros Hs Hc Hrun.
  apply (run_invariant_on (fun l => negb (is_async_registration l))
           (fun w => no_add_client w
                     /\ (exiting (pc_loop w) = true -> m_num_clients (ev_loop w) = 0%Z)))
    in Hrun; [| |done|].
  - destruct Hrun as [[Hd Hq _ _] Hinv]. done.
  - intros l w1 w2 Hstep Hl [Hok Hinv]. apply negb_true_iff in Hl.
    split; [by eapply no_add_client_step|by eapply exit_sound_step].
  - split; [|done]. split; simpl; try done.
    intros i pc Hi. rewrite list_lookup_fmap in Hi.
    destruct (calls !! i) eqn:E; simplify_eq/=.
    apply Hc. by eapply list_elem_of_lookup_2.
Qed.

Lemma exit_test_is_sound_without_add_client_witness :
  run shutdown_schedule (initial 3 4 0 []) = Some shutdown_world
  /\ pc_loop shutdown_world = L_done
  /\ m_num_clients (ev_loop shutdown_world) = 0%Z.
Proof.
  assert (run shutdown_schedule (initial 3 4 0 []) = Some shutdown_world) as Hrun
    by (vm_compute; reflexivity).
  split; [exact Hrun|]. split; [reflexivity|].
  apply (exit_test_is_sound_without_add_client 3 4 0 [] shutdown_schedule _
           eq_refl ltac:(apply not_elem_of_nil) Hrun).
  reflexivity.
Defined.

(** ** When the destruction of a Thread proxy can be completed *)

Ltac thread_cases w :=
  destruct w as [en fr [tn wt rq cb'] mx mf fz pr mt pw ps tr];
  unfold good, crashed, remaining in *; simpl in *; subst;
  destruct ps; simpl in *; try done;
  destruct pw; simpl in *; try done;
  destruct mx as [[]|]; simpl in *;
  try (exfalso; intuition congruence).

Lemma thread_step_decreases ThreadName exe_name name w :
  thread_ok ThreadName exe_name name w -> good w = true -> pc_server w <> T_done ->
  exists a w',
    tstep ThreadName a w = Some w' /\ remaining w' < remaining w /\ good w' = true.
Proof.
  intros [Hpar Hord Hreq Hmaps Hname Hwaiter Htaken Hidle Hprom Hsp Hex
          Hjn Hms Hmw Hfault Hexit Hjoined Hfreed [Hna1 Hna2] Hp1 Hp2] Hgood Hnd.
  clear Hord Hreq Hmaps Hname Htaken Hexit Hfreed Hp1 Hp2 Hpar.
  thread_cases w.
  all: first
    [ by (exists TServer; eexists; split; [reflexivity|]; split; [vm_compute; lia|reflexivity])
    | by (exists TWorker; eexists; split; [reflexivity|]; split; [vm_compute; lia|reflexivity]) ].
Qed.

Lemma thread_completes_within ThreadName exe_name name n : forall w,
  thread_ok ThreadName exe_name name w -> good w = true -> remaining w <= n ->
  exists rest w',
    trun ThreadName rest w = Some w' /\ pc_server w' = T_done /\ length rest <= n.
Proof.
  induction n as [|n IH]; intros w Hok Hgood Hn.
  - exists [], w. split; [done|]. split; [|done].
    destruct (decide (pc_server w = T_done)) as [|Hne]; [done|].
    destruct (thread_step_decreases _ _ _ _ Hok Hgood Hne) as (a & w' & _ & Hlt & _). lia.
  - destruct (decide (pc_server w = T_done)) as [Hd|Hne].
    + exists [], w. split; [done|]. split; [done|simpl; lia].
    + destruct (thread_step_decreases _ _ _ _ Hok Hgood Hne) as (a & w1 & Hs & Hlt & Hg).
      destruct (IH w1) as (rest & w' & Hrun & Hd & Hlen).
      * by eapply thread_ok_step.
      * done.
      * lia.
      * exists (a :: rest), w'. simpl. rewrite Hs. split; [done|]. split; [done|lia].
Qed.

(** Once the destructor has the lock while the worker is not yet inside
    [wait], or once the worker has faulted, this stays so. *)
Lemma not_good_step ThreadName exe_name name a w w' :
  thread_ok ThreadName exe_name name w -> good w = false ->
  tstep ThreadName a w = Some w' -> good w' = false.
Proof.
  intros [Hpar Hord Hreq Hmaps Hname Hwaiter Htaken Hidle Hprom Hsp Hex
          Hjn Hms Hmw Hfault Hexit Hjoined Hfreed [Hna1 Hna2] Hp1 Hp2] Hgood Hstep.
  clear Hord Hreq Hmaps Hname Htaken Hexit Hfreed Hp1 Hp2 Hpar.
  unfold tstep, server_step, worker_step, tacquire in Hstep.
  thread_cases w.
  all: destruct a; simpl in *; by simplify_eq.
Qed.

Lemma not_good_never_done ThreadName exe_name name w :
  thread_ok ThreadName exe_name name w -> good w = false -> pc_server w <> T_done.
Proof.
  intros Hok Hgood Hd. pose proof (t_joined _ _ _ _ Hok (or_intror Hd)) as Hw.
  unfold good, crashed in Hgood. by rewrite Hd, Hw in Hgood.
Qed.

(** Whether the destruction of a Thread proxy can be completed is decided
    when the destructor gets the Waiter's lock (line 265).  From every
    state that [makeThread] and the destructor can reach under any
    interleaving with the worker:
    - if the worker has not faulted and, where the destructor already
      has the lock or is past it, the worker was inside [wait], then some
      continuation of at most 70 steps ends with the destructor
      returned, the worker finished and joined, and both maps empty;
    - otherwise no continuation lets the destructor return. *)
Theorem thread_teardown_completes_iff_worker_parked
    ThreadName exe_name name req cb sched w :
  trun ThreadName sched (tinitial exe_name name req cb) = Some w ->
  (good w = true ->
   exists rest w',
     trun ThreadName rest w = Some w'
     /\ length rest <= 70
     /\ pc_server w' = T_done /\ pc_worker w' = W_done /\ m_thread w' = false
     /\ request_threads (g_thread_context w') = ∅
     /\ callback_threads (g_thread_context w') = ∅)
  /\ (good w = false ->
      forall rest w', trun ThreadName rest w = Some w' -> pc_server w' <> T_done).
Proof.
  intros Hrun.
  pose proof (reachable_thread_ok ThreadName exe_name name req cb sched w Hrun) as Hok.
  split.
  - intros Hgood.
    destruct (thread_completes_within ThreadName exe_name name 70 w Hok Hgood)
      as (rest & w' & Hrest & Hd & Hlen).
    { unfold remaining. destruct (pc_server w), (pc_worker w); simpl; lia. }
    exists rest, w'. split; [done|]. split; [done|]. split; [done|].
    assert (thread_ok ThreadName exe_name name w') as Hok'.
    { eapply trun_invariant; [apply thread_ok_step|apply Hrest|exact Hok]. }
    destruct Hok' as [_ _ Hreq Hmaps _ _ _ _ _ _ _ Hjn _ _ _ _ Hjoined _ _ _ _].
    rewrite Hd in Hreq, Hmaps, Hjn.
    split; [apply Hjoined; by right|]. split; [exact Hjn|].
    split; [by apply Hreq|by apply Hmaps].
  - intros Hgood rest w' Hrest.
    assert (thread_ok ThreadName exe_name name w' /\ good w' = false) as [Hok' Hg'].
    { eapply (trun_invariant ThreadName
                (fun w => thread_ok ThreadName exe_name name w /\ good w = false));
        [|apply Hrest|by split].
      intros a w1 w2 Hs [Hok1 Hg1]. split;
        [by eapply thread_ok_step|by eapply not_good_step]. }
    by eapply not_good_never_done.
Qed.

Lemma thread_teardown_completes_iff_worker_parked_witness :
  (trun ThreadName_example (take 11 thread_lifecycle) (tinitial "bitcoin-node" "x" ∅ ∅)
     = Some thread_mid_world
   /\ pc_server thread_mid_world = T_assert_waiter
   /\ exists rest w',
        trun ThreadName_example rest thread_mid_world = Some w'
        /\ length rest <= 70
        /\ pc_server w' = T_done)
  /\ (trun ThreadName_example thread_race (tinitial "bitcoin-node" "x" ∅ ∅)
        = Some thread_race_world
      /\ pc_server thread_race_world = T_join
      /\ pc_worker thread_race_world = W_lock
      /\ forall rest w',
           trun ThreadName_example rest thread_race_world = Some w' ->
           pc_server w' <> T_done).
Proof.
  assert (trun ThreadName_example (take 11 thread_lifecycle)
               (tinitial "bitcoin-node" "x" ∅ ∅) = Some thread_mid_world) as Hrun
    by (vm_compute; reflexivity).
  assert (trun ThreadName_example thread_race
               (tinitial "bitcoin-node" "x" ∅ ∅) = Some thread_race_world) as Hrace
    by (vm_compute; reflexivity).
  split.
  - split; [exact Hrun|]. split; [reflexivity|].
    destruct (proj1 (thread_teardown_completes_iff_worker_parked ThreadName_example
                       "bitcoin-node" "x" ∅ ∅ _ _ Hrun) eq_refl)
      as (rest & w' & Hrest & Hlen & Hd & _).
    exists rest, w'. split; [exact Hrest|]. split; [exact Hlen|exact Hd].
  - split; [exact Hrace|]. split; [reflexivity|]. split; [reflexivity|].
    exact (proj2 (thread_teardown_completes_iff_worker_parked ThreadName_example
                    "bitcoin-node" "x" ∅ ∅ _ _ Hrace) eq_refl).
Defined.
